(** * The project-creation conversation of the gmon.link bot

    A shallow embedding of [src/lib/conversations/create-project.ts]:
    the helper [extractUsernameFromUrl] together with the fragment of
    JavaScript regular expressions its two patterns use, and the
    conversation [createProject] as a program in a small state, output and
    error monad over the bot's world (pending updates, emitted calls, the
    three process-wide records).  Every awaited call can reject: the
    services by their results, the calls on the Bot API as the parameter
    [api] of the flow says.

    Strings are [string]s of bytes.  The patterns, [startsWith] and the
    comparisons of the flow only ever single out ASCII characters, and a
    character outside ASCII is made of bytes above 127, which no pattern
    character, class or case mapping of the source touches. *)

From stdpp Require Import gmap strings list.
From Stdlib Require Import Ascii String NArith ZArith Lia.

Open Scope string_scope.
Open Scope list_scope.

(** ** JavaScript values used by the flow *)

(** A variable that may hold [undefined], [null] or an object. *)
Inductive JsRef (A : Type) : Type :=
| undefined
| null
| ref (a : A).
Arguments undefined {A}.
Arguments null {A}.
Arguments ref {A} a.

(** Truthiness of a string: only the empty string is falsy. *)
Definition truthy (s : string) : bool :=
  match s with
  | EmptyString => false
  | String _ _ => true
  end.

(** [a || b] on a value that is a string or a falsy non-string. *)
Definition or_else (a : option string) (b : string) : string :=
  match a with
  | Some s => if truthy s then s else b
  | None => b
  end.

(** ** Regular expressions

    The fragment of pattern syntax of the two literals in
    [extractUsernameFromUrl], matched by backtracking with an explicit
    continuation, as the language defines it: alternatives are tried in
    order, quantifiers are greedy, the first match from the leftmost
    start index wins. *)

Inductive regex : Type :=
| Eps
| Chr (c : ascii)
| Class (ranges : list (ascii * ascii))
| Seq (r1 r2 : regex)
| Opt (r : regex)
| Plus (r : regex)
| Capture (r : regex).

(** The characters of a literal run such as [twitter\.com\/]. *)
Fixpoint lit (s : string) : regex :=
  match s with
  | EmptyString => Eps
  | String c s' => Seq (Chr c) (lit s')
  end.

Definition in_range (lo hi c : ascii) : bool :=
  (N_of_ascii lo <=? N_of_ascii c)%N && (N_of_ascii c <=? N_of_ascii hi)%N.

Definition in_ranges (ranges : list (ascii * ascii)) (c : ascii) : bool :=
  existsb (fun r => in_range (fst r) (snd r) c) ranges.

(** Canonicalisation under the [i] flag: upper-casing of a letter. *)
Definition canonicalize (c : ascii) : ascii :=
  if in_range "a" "z" c then ascii_of_N (N_of_ascii c - 32) else c.

Definition to_lower (c : ascii) : ascii :=
  if in_range "A" "Z" c then ascii_of_N (N_of_ascii c + 32) else c.

Definition char_matches (ignoreCase : bool) (p c : ascii) : bool :=
  if ignoreCase then Ascii.eqb (canonicalize p) (canonicalize c) else Ascii.eqb p c.

(** A class matches [c] when one of its members canonicalises like [c]:
    with the [i] flag those are the upper case of [c] and its lower case. *)
Definition class_matches (ignoreCase : bool) (ranges : list (ascii * ascii)) (c : ascii) : bool :=
  in_ranges ranges c
  || (ignoreCase && (in_ranges ranges (canonicalize c)
                     || in_ranges ranges (to_lower (canonicalize c)))).

(** What [s] lost to reach its suffix [s']. *)
Definition consumed (s s' : string) : string :=
  String.substring 0 (String.length s - String.length s') s.

Section Matcher.
(** The result of a successful match. *)
Variable R : Type.

Definition cont : Type := string -> option string -> option R.
Definition matcher : Type := string -> option string -> cont -> option R.

(** Greedy repetition once the minimum is met: one more round first, the
    continuation only when that fails; a round that consumes nothing
    fails. *)
Fixpoint repeat_matcher (m : matcher) (fuel : nat) (x : string) (cap : option string) (c : cont) : option R :=
  match fuel with
  | O => c x cap
  | S fuel' =>
      match m x cap (fun y cap' =>
                       if (String.length y =? String.length x)%nat then None
                       else repeat_matcher m fuel' y cap' c) with
      | Some z => Some z
      | None => c x cap
      end
  end.

Fixpoint rmatch (ignoreCase : bool) (r : regex) (x : string) (cap : option string) (c : cont) : option R :=
  match r with
  | Eps => c x cap
  | Chr p =>
      match x with
      | String a y => if char_matches ignoreCase p a then c y cap else None
      | EmptyString => None
      end
  | Class ranges =>
      match x with
      | String a y => if class_matches ignoreCase ranges a then c y cap else None
      | EmptyString => None
      end
  | Seq r1 r2 => rmatch ignoreCase r1 x cap (fun y cap' => rmatch ignoreCase r2 y cap' c)
  | Opt r1 =>
      match rmatch ignoreCase r1 x cap c with
      | Some z => Some z
      | None => c x cap
      end
  | Plus r1 =>
      rmatch ignoreCase r1 x cap
        (fun y cap' => repeat_matcher (rmatch ignoreCase r1) (String.length y) y cap' c)
  | Capture r1 =>
      rmatch ignoreCase r1 x cap (fun y _ => c y (Some (consumed x y)))
  end.
End Matcher.

Arguments rmatch {R} ignoreCase r x cap c.
Arguments repeat_matcher {R} m fuel x cap c.

(** [String.prototype.match] with a pattern without the [g] flag: the
    match at the smallest start index; the result is the match's first
    group, [None] inside when the group took no part. *)
Fixpoint regex_exec (ignoreCase : bool) (r : regex) (s : string) : option (option string) :=
  match rmatch ignoreCase r s None (fun _ cap => Some cap) with
  | Some groups => Some groups
  | None =>
      match s with
      | EmptyString => None
      | String _ s' => regex_exec ignoreCase r s'
      end
  end.

(** ** [extractUsernameFromUrl] *)

Inductive Platform : Type := twitter | github.

Definition word_class : list (ascii * ascii) :=
  [("a", "z"); ("A", "Z"); ("0", "9"); ("_", "_")]%char.

Definition word_dash_class : list (ascii * ascii) :=
  [("a", "z"); ("A", "Z"); ("0", "9"); ("_", "_"); ("-", "-")]%char.

(** [(?:https?:\/\/)?(?:www\.)?] *)
Definition url_prefix : regex -> regex :=
  fun rest =>
    Seq (Opt (Seq (lit "http") (Seq (Opt (Chr "s")) (lit "://"))))
        (Seq (Opt (lit "www.")) rest).

(** [/(?:https?:\/\/)?(?:www\.)?twitter\.com\/([a-zA-Z0-9_]+)/i] *)
Definition twitter_regex : regex :=
  url_prefix (Seq (lit "twitter.com/") (Capture (Plus (Class word_class)))).

(** [/(?:https?:\/\/)?(?:www\.)?github\.com\/([a-zA-Z0-9_-]+)/i] *)
Definition github_regex : regex :=
  url_prefix (Seq (lit "github.com/") (Capture (Plus (Class word_dash_class)))).

Definition extractUsernameFromUrl (url : string) (platform : Platform) : option string :=
  let regex :=
    match platform with
    | twitter => twitter_regex
    | github => github_regex
    end in
  match regex_exec true regex url with
  | Some (Some group1) => Some group1
  | Some None => None
  | None => None
  end.

(** ** The world of the bot *)

(** Exceptions the flow can end in. *)
Inductive Exn : Type :=
| Error (message : option string)
| TypeError (message : string)
| StorageError (message : string)
| Rejection (reason : string).

Record PhotoSize : Type := { file_id : string }.

Record Message : Type := {
  msg_text : option string;
  msg_photo : option (list PhotoSize)
}.

(** An incoming update, as far as the waits of the flow look at it. *)
Record Update : Type := { message : option Message }.

Record User : Type := { username : string }.

(** The file description returned by the platform's file API. *)
Record File : Type := { file_path : option string }.

Definition Buffer : Type := list Byte.byte.

(** The response of [fetch]; reading the body can fail too. *)
Record Response : Type := { arrayBuffer : Exn + Buffer }.

Record UploadData : Type := { fullPath : string }.

Record UploadResponse : Type := {
  upload_data : option UploadData;
  upload_error : option string
}.

Record Link : Type := { link_title : string; link_url : string }.

(** The object handed to [insert]. *)
Record NewProject : Type := {
  user_id : Z;
  title : string;
  description : string;
  slug : string;
  avatar_url : string;
  links : list Link
}.

(** The row read back by [select("*").single()]. *)
Record PersistedProject : Type := {
  project_id : Z;
  columns : NewProject
}.

Record InsertResponse : Type := {
  insert_data : option PersistedProject;
  insert_error : option string
}.

Record Button : Type := { button_text : string; callback_data : string }.

(** The calls the flow makes on its collaborators, in the order made. *)
Inductive Event : Type :=
| SendTipMessage
| Reply (text : string) (html : bool)
| EditMessageText (chat message_id : Z) (text : string) (html : bool)
                  (inline_keyboard : list (list Button))
| SendMessage (chat : Z) (text : string) (html : bool) (link_preview : bool)
| ConsoleError (e : Exn)
| ConsoleLog (line : string)
| StorageUpload (bucket fileName : string) (body : Buffer) (upsert : bool)
                (contentType : string)
| Insert (table : string) (row : NewProject) (response : InsertResponse).

(** The collaborators outside this file: configuration, the modules
    [get-user] and [utils], the platform's file API, [fetch], the
    [mime-types] table, object storage, the database, and the updates the
    session engine lets through for the filter query [message:photo].  A
    call that can reject returns the exception on the left. *)
Record Services : Type := {
  botToken : string;
  alertsChannelId : Z;
  getUser : Z -> Exn + User;
  createSlug : string -> Exn + string;
  getFile : string -> Exn + File;
  fetch : string -> Exn + Response;
  mime_lookup : string -> option string;
  storage_upload : string -> Buffer -> string -> Exn + UploadResponse;
  db_insert : NewProject -> InsertResponse;
  message_photo : Update -> bool
}.

(** How the Bot API answers a call of [ctx.reply], [ctx.api.*] or
    [sendTipMessage], given the calls made before it: [None] when the
    call resolves, the rejection otherwise. *)
Definition BotApi : Type := list Event -> Event -> option Exn.

(** A Bot API on which every call resolves. *)
Definition resolving : BotApi := fun _ _ => None.

(** The context of the update that started the conversation. *)
Record MyContext : Type := { from_id : Z; chat_id : Z }.

(** The pending updates, the calls made so far, how many messages the
    bot has sent, and the three records of [records.ts]. *)
#[projections(primitive)]
Record World : Type := {
  inbox : list Update;
  trace : list Event;
  sent : nat;
  isInConversationRecord : gmap Z bool;
  projectRecord : gmap Z PersistedProject;
  activeProjectRecord : gmap Z Z
}.

Definition set_inbox (us : list Update) (w : World) : World :=
  {| inbox := us; trace := trace w; sent := sent w;
     isInConversationRecord := isInConversationRecord w;
     projectRecord := projectRecord w;
     activeProjectRecord := activeProjectRecord w |}.

Definition emit (e : Event) (w : World) : World :=
  {| inbox := inbox w; trace := trace w ++ [e]; sent := sent w;
     isInConversationRecord := isInConversationRecord w;
     projectRecord := projectRecord w;
     activeProjectRecord := activeProjectRecord w |}.

Definition count_sent (w : World) : World :=
  {| inbox := inbox w; trace := trace w; sent := S (sent w);
     isInConversationRecord := isInConversationRecord w;
     projectRecord := projectRecord w;
     activeProjectRecord := activeProjectRecord w |}.

Definition set_isInConversationRecord (k : Z) (v : bool) (w : World) : World :=
  {| inbox := inbox w; trace := trace w; sent := sent w;
     isInConversationRecord := <[k:=v]> (isInConversationRecord w);
     projectRecord := projectRecord w;
     activeProjectRecord := activeProjectRecord w |}.

Definition set_projectRecord (k : Z) (v : PersistedProject) (w : World) : World :=
  {| inbox := inbox w; trace := trace w; sent := sent w;
     isInConversationRecord := isInConversationRecord w;
     projectRecord := <[k:=v]> (projectRecord w);
     activeProjectRecord := activeProjectRecord w |}.

Definition set_activeProjectRecord (k : Z) (v : Z) (w : World) : World :=
  {| inbox := inbox w; trace := trace w; sent := sent w;
     isInConversationRecord := isInConversationRecord w;
     projectRecord := projectRecord w;
     activeProjectRecord := <[k:=v]> (activeProjectRecord w) |}.

(** ** The monad of the flow

    An asynchronous function either goes on with a value, returns early,
    throws, or stays suspended on a wait that is never answered. *)

Inductive Outcome (A : Type) : Type :=
| Value (a : A)
| Returned
| Thrown (e : Exn)
| Suspended.
Arguments Value {A} a.
Arguments Returned {A}.
Arguments Thrown {A} e.
Arguments Suspended {A}.

Definition M (A : Type) : Type := World -> Outcome A * World.

Definition ret {A} (a : A) : M A := fun w => (Value a, w).

Definition bind {A B} (k : A -> M B) (m : M A) : M B :=
  fun w =>
    match m w with
    | (Value a, w') => k a w'
    | (Returned, w') => (Returned, w')
    | (Thrown e, w') => (Thrown e, w')
    | (Suspended, w') => (Suspended, w')
    end.

#[export] Instance M_ret : MRet M := @ret.
#[export] Instance M_bind : MBind M := @bind.

Definition return_ {A} : M A := fun w => (Returned, w).
Definition throw {A} (e : Exn) : M A := fun w => (Thrown e, w).

(** [await] of a call that either resolves or rejects. *)
Definition await {A} (r : Exn + A) : M A :=
  match r with
  | inl e => throw e
  | inr a => ret a
  end.

(** The rest of a [try] block once the variable it assigns holds [x]:
    a throw of [block] reaches the handler, in the world the block left
    behind, and the variable keeps [x]; a throw of the handler is not
    caught. *)
Definition catching {A} (x : A) (block : M unit) (handler : Exn -> M unit) : M A :=
  fun w =>
    match block w with
    | (Value _, w') => (Value x, w')
    | (Returned, w') => (Returned, w')
    | (Thrown e, w') => (handler e ≫= λ _, mret x) w'
    | (Suspended, w') => (Suspended, w')
    end.

(** [let x; try { x = before; after } catch (error) { handler }]: what
    [x] holds after the statement.  A throw of [before] reaches the
    handler with [x] still [unassigned]. *)
Definition try_catch_assign {A} (unassigned : A) (before : M A) (after : A -> M unit)
    (handler : Exn -> M unit) : M A :=
  fun w =>
    match before w with
    | (Value a, w') => catching a (after a) handler w'
    | (Returned, w') => (Returned, w')
    | (Thrown e, w') => (handler e ≫= λ _, mret unassigned) w'
    | (Suspended, w') => (Suspended, w')
    end.

(** A call that cannot reject: [console.*], and the record of a call
    whose answer the collaborators give. *)
Definition tell (e : Event) : M unit := fun w => (Value tt, emit e w).

(** A call on the Bot API: made, and then resolved or rejected. *)
Definition call (api : BotApi) (e : Event) : M unit :=
  fun w =>
    match api (trace w) e with
    | None => (Value tt, emit e w)
    | Some rejection => (Thrown rejection, emit e w)
    end.

(** A sent message is known by its number among the bot's messages. *)
Record SentMessage : Type := { message_id : Z }.

Definition ctx_reply (api : BotApi) (text : string) (html : bool) : M SentMessage :=
  fun w =>
    match api (trace w) (Reply text html) with
    | None => (Value {| message_id := Z.of_nat (sent w) |},
               count_sent (emit (Reply text html) w))
    | Some rejection => (Thrown rejection, emit (Reply text html) w)
    end.

Definition editMessageText (api : BotApi) (chat mid : Z) (text : string) : M unit :=
  call api (EditMessageText chat mid text false []).

(** [sendTipMessage] of [send-message.ts], which is not part of this
    file: kept as the one call it is here. *)
Definition sendTipMessage (api : BotApi) : M unit := call api SendTipMessage.

(** Modelled from the spec: [conversation.form.text] of the session
    engine, which is not part of this file.  It suspends for the next text
    message, accepts any non-empty string, and on an update without text
    runs the callback and keeps waiting. *)
Definition text_of (u : Update) : option string :=
  match message u with
  | Some m =>
      match msg_text m with
      | Some s => if truthy s then Some s else None
      | None => None
      end
  | None => None
  end.

Fixpoint form_text_loop (otherwise : M unit) (us : list Update) (w : World) : Outcome string * World :=
  match us with
  | [] => (Suspended, set_inbox [] w)
  | u :: us' =>
      match text_of u with
      | Some s => (Value s, set_inbox us' w)
      | None =>
          match otherwise (set_inbox us' w) with
          | (Value _, w') => form_text_loop otherwise us' w'
          | (Returned, w') => (Returned, w')
          | (Thrown e, w') => (Thrown e, w')
          | (Suspended, w') => (Suspended, w')
          end
      end
  end.

Definition form_text (otherwise : M unit) : M string :=
  fun w => form_text_loop otherwise (inbox w) w.

(** Modelled from the spec: [conversation.waitFor], which suspends until
    the next update that matches the filter query and passes other
    updates by. *)
Fixpoint waitFor_loop (matches : Update -> bool) (us : list Update) (w : World)
    : Outcome Update * World :=
  match us with
  | [] => (Suspended, set_inbox [] w)
  | u :: us' =>
      if matches u then (Value u, set_inbox us' w)
      else waitFor_loop matches us' w
  end.

Definition waitFor (matches : Update -> bool) : M Update :=
  fun w => waitFor_loop matches (inbox w) w.

(** The query [message:photo] as the session engine reads it: a message
    with a photo. *)
Definition has_photo (u : Update) : bool :=
  match message u with
  | Some m => match msg_photo m with Some _ => true | None => false end
  | None => false
  end.

(** ** String helpers of the flow *)

Definition quote : string := String "034"%char EmptyString.
Definition newline : string := String "010"%char EmptyString.

(** [s.split(sep)] for a one-character separator: never empty. *)
Fixpoint split (sep : ascii) (s : string) : list string :=
  match s with
  | EmptyString => [EmptyString]
  | String c s' =>
      if Ascii.eqb c sep then EmptyString :: split sep s'
      else
        match split sep s' with
        | seg :: segs => String c seg :: segs
        | [] => [String c EmptyString]
        end
  end.

(** An interpolated value that may be [undefined]. *)
Definition interpolate (o : option string) : string :=
  match o with
  | Some s => s
  | None => "undefined"
  end.

(** ** [createProject] *)

(** The constants the image step derives before the upload. *)
Definition projectImage_of (svc : Services) (image : File) : string :=
  "https://api.telegram.org/file/bot" +:+ botToken svc +:+ "/"
  +:+ interpolate (file_path image).

Definition fileExtension_of (file_path : string) : string :=
  or_else (last (split "." file_path)) "jpg".

Definition contentType_of (svc : Services) (fileExtension : string) : string :=
  or_else (mime_lookup svc fileExtension) "image/jpeg".

Definition fileName_of (slug fileExtension : string) : string :=
  slug +:+ "." +:+ fileExtension.

Definition invalidProjectName : string := "Please provide a valid project name.".
Definition invalidProjectUrl : string := "Please provide a valid project URL.".

Definition steps : string := "3".

Definition void {A} (m : M A) : M unit := m ≫= λ _, mret tt.

Definition step_label (i : string) : string :=
  "<code>[" +:+ i +:+ "/" +:+ steps +:+ "]</code>" +:+ newline.

Definition project_anchor (slug : string) : string :=
  "<a href=" +:+ quote +:+ "gmon.link/" +:+ slug +:+ quote +:+ ">gmon.link/"
  +:+ slug +:+ "</a>".

Definition createProject (api : BotApi) (svc : Services) (ctx : MyContext) : M unit :=
  let userId := from_id ctx in
  user ← await (getUser svc userId);
  (λ w, (Value tt, set_isInConversationRecord userId true w)) ;;
  sendTipMessage api ;;
  (* 1. Get the project name *)
  ctx_reply api (step_label "1" +:+ "Sure! Let's create a new project. What's the name of the project or person you're creating a gmon.link for?") true ;;
  projectName ← form_text (void (ctx_reply api invalidProjectName false));
  (* 2. Get the project description *)
  ctx_reply api (step_label "2" +:+ "Great! <code>" +:+ projectName +:+ "</code> it is. Now, let's write a short description for the project.") true ;;
  projectDescription ← form_text (void (ctx_reply api "Please provide a valid description." false));
  (* 3. Twitter ID or URL *)
  ctx_reply api (step_label "3" +:+ "Do you have a Twitter handle or a Twitter URL? Please provide it. Type " +:+ quote +:+ "no" +:+ quote +:+ " if you don't want to add it.") true ;;
  twitterInput ← form_text (void (ctx_reply api "Please provide a valid input (Twitter handle/URL or 'no')." false));
  twitterId ←
    (if String.prefix "http" twitterInput then
       let invalid : M string :=
         ctx_reply api "⚠️ The provided Twitter URL is invalid. Please try again or type 'no'." false ;;
         return_ in
       match extractUsernameFromUrl twitterInput twitter with
       | Some twitterId => if truthy twitterId then mret twitterId else invalid
       | None => invalid
       end
     else mret twitterInput);
  let twitterLink :=
    if String.eqb twitterId "no" then None
    else Some ("https://twitter.com/" +:+ twitterId) in
  (* 4. GitHub ID or URL *)
  ctx_reply api (step_label "4" +:+ "Do you have a GitHub ID or GitHub URL? Please provide it. Type " +:+ quote +:+ "no" +:+ quote +:+ " to skip.") true ;;
  githubInput ← form_text (void (ctx_reply api "Please provide a valid input (GitHub handle/URL or 'no')." false));
  githubId ←
    (if String.prefix "http" githubInput then
       let invalid : M string :=
         ctx_reply api "⚠️ The provided GitHub URL is invalid. Please try again or type 'no'." false ;;
         return_ in
       match extractUsernameFromUrl githubInput github with
       | Some githubId => if truthy githubId then mret githubId else invalid
       | None => invalid
       end
     else mret githubInput);
  let githubLink :=
    if String.eqb githubId "no" then None
    else Some ("https://github.com/" +:+ githubId) in
  (* 5. Add an image *)
  ctx_reply api (step_label "5" +:+ "Fab! Let's add an image for the project. Send a photo or an image of the project.") true ;;
  update ← waitFor (message_photo svc);
  match message update ≫= msg_photo with
  | None =>
      ctx_reply api "Please provide a valid image." false ;;
      return_
  | Some photo =>
      uploadingMessage ← ctx_reply api "⏳ We're uploading your image..." false;
      slug ← await (createSlug svc projectName);
      imageData ←
        try_catch_assign undefined
          (imageId ←
             match last photo with
             | Some size => mret (file_id size)
             | None => throw (TypeError "Cannot read properties of undefined (reading 'file_id')")
             end;
           image ← await (getFile svc imageId);
           let projectImage := projectImage_of svc image in
           (* Fetch the image as an ArrayBuffer *)
           response ← await (fetch svc projectImage);
           buffer ← await (arrayBuffer response);
           (* Get file extension and MIME type *)
           path ←
             match file_path image with
             | Some p =>
                 if truthy p then mret p
                 else throw (Error (Some "No file path found in the image."))
             | None => throw (Error (Some "No file path found in the image."))
             end;
           let fileExtension := fileExtension_of path in
           let contentType := contentType_of svc fileExtension in
           let fileName := fileName_of slug fileExtension in
           tell (StorageUpload "gmon.link" fileName buffer true contentType) ;;
           uploaded ← await (storage_upload svc fileName buffer contentType);
           match upload_error uploaded with
           | Some error => throw (StorageError error)
           | None =>
               (* imageData = imageRes *)
               mret match upload_data uploaded with
                    | Some imageRes => ref imageRes
                    | None => null
                    end
           end)
          (λ _,
             editMessageText api (chat_id ctx) (message_id uploadingMessage)
               "✅ Image uploaded successfully!")
          (λ error,
             tell (ConsoleError error) ;;
             editMessageText api (chat_id ctx) (message_id uploadingMessage)
               "❌ Sorry, there was an error uploading your image.");
      editMessageText api (chat_id ctx) (message_id uploadingMessage)
        "🎉 Image uploaded successfully!" ;;
      imageUrl ←
        match imageData with
        | ref imageRes => mret (fullPath imageRes)
        | undefined =>
            throw (TypeError "Cannot read properties of undefined (reading 'fullPath')")
        | null =>
            throw (TypeError "Cannot read properties of null (reading 'fullPath')")
        end;
      tell (ConsoleLog imageUrl) ;;
      editMessageText api (chat_id ctx) (message_id uploadingMessage)
        "⏳ We're creating your project..." ;;
      let row :=
        {| user_id := userId; title := projectName;
           description := projectDescription; slug := slug;
           avatar_url := imageUrl;
           links :=
             match twitterLink with
             | Some url =>
                 if truthy url then [{| link_title := "Twitter"; link_url := url |}]
                 else []
             | None => []
             end
             ++
             match githubLink with
             | Some url =>
                 if truthy url then [{| link_title := "GitHub"; link_url := url |}]
                 else []
             | None => []
             end |} in
      let inserted := db_insert svc row in
      tell (Insert "projects" row inserted) ;;
      match insert_error inserted, insert_data inserted with
      | None, Some data =>
          (λ w, (Value tt, set_projectRecord userId data w)) ;;
          (λ w, (Value tt, set_activeProjectRecord userId (project_id data) w)) ;;
          call api (EditMessageText (chat_id ctx) (message_id uploadingMessage)
                  ("🎉 <b>Project created successfully!</b> Here's the link to the project: "
                   +:+ project_anchor slug)
                  true
                  [[{| button_text := "Add a Link"; callback_data := "create-link" |}]]) ;;
          call api (SendMessage (alertsChannelId svc)
                  (username user +:+ " created a new project. " +:+ project_anchor slug)
                  true false) ;;
          mret tt
      | _, _ =>
          ctx_reply api "An error occurred while creating the project. Please try again." false ;;
          throw (Error (insert_error inserted))
      end
  end.

(** ** Reading the conversation off the pending updates *)

(** The next update that answers a text step, and what is left after it. *)
Fixpoint next_text (us : list Update) : option (string * list Update) :=
  match us with
  | [] => None
  | u :: us' =>
      match text_of u with
      | Some s => Some (s, us')
      | None => next_text us'
      end
  end.

(** How many updates a text step passes by before its answer. *)
Fixpoint text_skips (us : list Update) : nat :=
  match us with
  | [] => 0
  | u :: us' =>
      match text_of u with
      | Some _ => 0
      | None => S (text_skips us')
      end
  end.

(** The updates still pending once [n] text steps were answered. *)
Fixpoint after_texts (n : nat) (us : list Update) : list Update :=
  match n with
  | O => us
  | S n' =>
      match next_text us with
      | Some (_, rest) => after_texts n' rest
      | None => []
      end
  end.

(** The answer to text step [n], counted from 0: the project name, the
    description, the Twitter input, the GitHub input. *)
Definition text_answer (n : nat) (us : list Update) : option string :=
  fst <$> next_text (after_texts n us).

(** The update the image step resumes on. *)
Fixpoint next_photo (matches : Update -> bool) (us : list Update)
    : option (Update * list Update) :=
  match us with
  | [] => None
  | u :: us' => if matches u then Some (u, us') else next_photo matches us'
  end.

(** The photo of that update, when it carries one. *)
Definition photo_answer (svc : Services) (us : list Update) : option (list PhotoSize) :=
  match next_photo (message_photo svc) (after_texts 4 us) with
  | Some (u, _) => message u ≫= msg_photo
  | None => None
  end.

(** The world after [n] replies of the same text. *)
Definition replied (n : nat) (text : string) (html : bool) (w : World) : World :=
  {| inbox := inbox w; trace := trace w ++ replicate n (Reply text html);
     sent := n + sent w;
     isInConversationRecord := isInConversationRecord w;
     projectRecord := projectRecord w;
     activeProjectRecord := activeProjectRecord w |}.

(** What a run added to the trace. *)
Definition emitted (w w' : World) : list Event :=
  drop (List.length (trace w)) (trace w').

(** The insert calls of a trace, each with the response it got. *)
Definition insert_of (e : Event) : option (NewProject * InsertResponse) :=
  match e with
  | Insert _ row response => Some (row, response)
  | _ => None
  end.

Definition inserts (es : list Event) : list (NewProject * InsertResponse) :=
  omap insert_of es.

(** A response the flow takes for a created project. *)
Definition insert_ok (response : InsertResponse) : bool :=
  match insert_error response, insert_data response with
  | None, Some _ => true
  | _, _ => false
  end.

(** ** What a run is made of

    The data a run that gets as far as the insert has gathered on its way,
    stated on the inputs: the answers read off the pending updates and
    the results of the calls. *)

(** The handle a link step settles on; [None] when it ends the flow. *)
Definition handle_of (platform : Platform) (input : string) : option string :=
  if String.prefix "http" input then
    match extractUsernameFromUrl input platform with
    | Some id => if truthy id then Some id else None
    | None => None
    end
  else Some input.

Definition link_of (platform : Platform) (id : string) : option Link :=
  if String.eqb id "no" then None
  else
    Some match platform with
         | twitter => {| link_title := "Twitter"; link_url := "https://twitter.com/" +:+ id |}
         | github => {| link_title := "GitHub"; link_url := "https://github.com/" +:+ id |}
         end.

Definition links_of (twitterId githubId : string) : list Link :=
  option_list (link_of twitter twitterId) ++ option_list (link_of github githubId).

(** The [try] block ran to its end: the file at [path] was fetched as
    [buffer] and handed to the storage, which answered without an error
    and with [data]. *)
Definition upload_stores (svc : Services) (slug : string) (photo : list PhotoSize)
    (path : string) (buffer : Buffer) (data : option UploadData) : Prop :=
  ∃ size image response uploaded,
    last photo = Some size
    ∧ getFile svc (file_id size) = inr image
    ∧ fetch svc (projectImage_of svc image) = inr response
    ∧ arrayBuffer response = inr buffer
    ∧ file_path image = Some path
    ∧ truthy path = true
    ∧ storage_upload svc (fileName_of slug (fileExtension_of path)) buffer
        (contentType_of svc (fileExtension_of path)) = inr uploaded
    ∧ upload_error uploaded = None
    ∧ upload_data uploaded = data.

(** The upload went through and stored [imageRes]. *)
Definition upload_succeeds (svc : Services) (slug : string) (photo : list PhotoSize)
    (path : string) (buffer : Buffer) (imageRes : UploadData) : Prop :=
  upload_stores svc slug photo path buffer (Some imageRes).

(** The ways the [try] block of the image step throws. *)
Inductive upload_fails (svc : Services) (slug : string) (photo : list PhotoSize) : Exn -> Prop :=
| fails_no_size :
    last photo = None ->
    upload_fails svc slug photo
      (TypeError "Cannot read properties of undefined (reading 'file_id')")
| fails_getFile size e :
    last photo = Some size ->
    getFile svc (file_id size) = inl e ->
    upload_fails svc slug photo e
| fails_fetch size image e :
    last photo = Some size ->
    getFile svc (file_id size) = inr image ->
    fetch svc (projectImage_of svc image) = inl e ->
    upload_fails svc slug photo e
| fails_arrayBuffer size image response e :
    last photo = Some size ->
    getFile svc (file_id size) = inr image ->
    fetch svc (projectImage_of svc image) = inr response ->
    arrayBuffer response = inl e ->
    upload_fails svc slug photo e
| fails_no_file_path size image response buffer :
    last photo = Some size ->
    getFile svc (file_id size) = inr image ->
    fetch svc (projectImage_of svc image) = inr response ->
    arrayBuffer response = inr buffer ->
    file_path image = None ∨ file_path image = Some "" ->
    upload_fails svc slug photo (Error (Some "No file path found in the image."))
| fails_upload_rejected size image response buffer path e :
    last photo = Some size ->
    getFile svc (file_id size) = inr image ->
    fetch svc (projectImage_of svc image) = inr response ->
    arrayBuffer response = inr buffer ->
    file_path image = Some path ->
    truthy path = true ->
    storage_upload svc (fileName_of slug (fileExtension_of path)) buffer
      (contentType_of svc (fileExtension_of path)) = inl e ->
    upload_fails svc slug photo e
| fails_upload_error size image response buffer path uploaded error :
    last photo = Some size ->
    getFile svc (file_id size) = inr image ->
    fetch svc (projectImage_of svc image) = inr response ->
    arrayBuffer response = inr buffer ->
    file_path image = Some path ->
    truthy path = true ->
    storage_upload svc (fileName_of slug (fileExtension_of path)) buffer
      (contentType_of svc (fileExtension_of path)) = inr uploaded ->
    upload_error uploaded = Some error ->
    upload_fails svc slug photo (StorageError error).

(** The locals of a run at the point of the insert. *)
Record Submission : Type := {
  s_user : User;
  projectName : string;
  projectDescription : string;
  twitterInput : string;
  twitterId : string;
  githubInput : string;
  githubId : string;
  s_photo : list PhotoSize;
  s_slug : string;
  s_path : string;
  s_buffer : Buffer;
  imageData : UploadData
}.

(** Every step before the image upload went through with these data. *)
Definition answered (svc : Services) (ctx : MyContext) (w : World) (s : Submission) : Prop :=
  getUser svc (from_id ctx) = inr (s_user s)
  ∧ text_answer 0 (inbox w) = Some (projectName s)
  ∧ text_answer 1 (inbox w) = Some (projectDescription s)
  ∧ text_answer 2 (inbox w) = Some (twitterInput s)
  ∧ handle_of twitter (twitterInput s) = Some (twitterId s)
  ∧ text_answer 3 (inbox w) = Some (githubInput s)
  ∧ handle_of github (githubInput s) = Some (githubId s)
  ∧ photo_answer svc (inbox w) = Some (s_photo s)
  ∧ createSlug svc (projectName s) = inr (s_slug s).

(** Every step before the insert went through. *)
Definition submitted (svc : Services) (ctx : MyContext) (w : World) (s : Submission) : Prop :=
  answered svc ctx w s
  ∧ upload_succeeds svc (s_slug s) (s_photo s) (s_path s) (s_buffer s) (imageData s).

(** The object the flow hands to [insert] then. *)
Definition row_of (ctx : MyContext) (s : Submission) : NewProject :=
  {| user_id := from_id ctx;
     title := projectName s;
     description := projectDescription s;
     slug := s_slug s;
     avatar_url := fullPath (imageData s);
     links := links_of (twitterId s) (githubId s) |}.

(** What a run did besides prompting and replying. *)
Definition is_reply (e : Event) : bool :=
  match e with
  | SendTipMessage | Reply _ _ => true
  | _ => false
  end.

Definition effects (es : list Event) : list Event :=
  List.filter (λ e, negb (is_reply e)) es.

(** An edit of the status message without markup. *)
Definition status (ctx : MyContext) (mid : Z) (text : string) : Event :=
  EditMessageText (chat_id ctx) mid text false [].

(** The link a row holds for a platform, by its title. *)
Definition link_for (title : string) (row : NewProject) : option string :=
  link_url <$> List.find (λ l, String.eqb (link_title l) title) (links row).

(** ** Runs *)

(** How a run ends, the world it leaves, and the calls it made, on a
    Bot API that answers as [api] says. *)
Definition outcome_on (api : BotApi) (svc : Services) (ctx : MyContext) (w : World)
    : Outcome unit :=
  (createProject api svc ctx w).1.

Definition final_on (api : BotApi) (svc : Services) (ctx : MyContext) (w : World) : World :=
  (createProject api svc ctx w).2.


(** The same for the run in which every call on the Bot API resolves. *)
Definition outcome (svc : Services) (ctx : MyContext) (w : World) : Outcome unit :=
  (createProject resolving svc ctx w).1.

Definition final (svc : Services) (ctx : MyContext) (w : World) : World :=
  (createProject resolving svc ctx w).2.

Definition events (svc : Services) (ctx : MyContext) (w : World) : list Event :=
  emitted w (final svc ctx w).

(** The last call made in [w] is one the Bot API rejected, with [e]. *)
Definition rejected (api : BotApi) (w : World) (e : Exn) : Prop :=
  ∃ history c, trace w = history ++ [c] ∧ api history c = Some e.

(** The objects a run handed to [insert]. *)
Definition inserted_rows (svc : Services) (ctx : MyContext) (w : World) : list NewProject :=
  fst <$> inserts (events svc ctx w).

(** The name and content type of each upload of a trace. *)
Definition upload_of (e : Event) : option (string * string) :=
  match e with
  | StorageUpload _ fileName _ _ contentType => Some (fileName, contentType)
  | _ => None
  end.

Definition uploads (es : list Event) : list (string * string) := omap upload_of es.


(** The step a link input is read at: the Twitter input is the third
    answer; the GitHub input is the fourth, read once the Twitter input
    was accepted. *)
Definition link_input (platform : Platform) (w : World) (input : string) : Prop :=
  match platform with
  | twitter => text_answer 2 (inbox w) = Some input
  | github =>
      (∃ tw id, text_answer 2 (inbox w) = Some tw ∧ handle_of twitter tw = Some id)
      ∧ text_answer 3 (inbox w) = Some input
  end.

Definition invalid_url_reply (platform : Platform) : Event :=
  match platform with
  | twitter =>
      Reply "⚠️ The provided Twitter URL is invalid. Please try again or type 'no'." false
  | github =>
      Reply "⚠️ The provided GitHub URL is invalid. Please try again or type 'no'." false
  end.

(** ** Handles and addresses *)

Fixpoint all_chars (p : ascii -> bool) (s : string) : bool :=
  match s with
  | EmptyString => true
  | String c s' => p c && all_chars p s'
  end.

(** A handle in the sense of the Twitter pattern: [[a-zA-Z0-9_]+]. *)
Definition is_handle (h : string) : bool :=
  truthy h && all_chars (in_ranges word_class) h.

(** The four spellings of a profile address: with or without the
    protocol, with or without [www.]. *)
Definition url_spellings : list string := ["https://"; "https://www."; ""; "www."].

(** ** The extension as the specification words it

    The part of the path after its last dot, and [jpg] when the path has
    no such part. *)
Fixpoint after_last_dot (s : string) : option string :=
  match s with
  | EmptyString => None
  | String c s' =>
      match after_last_dot s' with
      | Some ext => Some ext
      | None => if Ascii.eqb c "." then Some s' else None
      end
  end.

Definition spec_fileExtension (file_path : string) : string :=
  match after_last_dot file_path with
  | Some ext => if truthy ext then ext else "jpg"
  | None => "jpg"
  end.

(** ** A conversation to run the flow on *)

Definition text_update (s : string) : Update :=
  {| message := Some {| msg_text := Some s; msg_photo := None |} |}.

Definition photo_update (ids : list string) : Update :=
  {| message :=
       Some {| msg_text := None;
               msg_photo := Some ((λ i, {| file_id := i |}) <$> ids) |} |}.

Definition demo_services (file : Exn + File) (upload : Exn + UploadResponse)
    (insert : NewProject -> InsertResponse) : Services :=
  {| botToken := "TOKEN";
     alertsChannelId := 99;
     getUser := λ _, inr {| username := "alice" |};
     createSlug := λ _, inr "acme";
     getFile := λ _, file;
     fetch := λ _, inr {| arrayBuffer := inr [] |};
     mime_lookup := λ ext,
       if String.eqb ext "jpg" then Some "image/jpeg"
       else if String.eqb ext "png" then Some "image/png"
       else None;
     storage_upload := λ _ _ _, upload;
     db_insert := insert;
     message_photo := has_photo |}.

Definition demo_file (path : string) : Exn + File := inr {| file_path := Some path |}.

Definition demo_stored : Exn + UploadResponse :=
  inr {| upload_data := Some {| fullPath := "gmon.link/acme.jpg" |};
         upload_error := None |}.

Definition demo_created (row : NewProject) : InsertResponse :=
  {| insert_data := Some {| project_id := 7; columns := row |}; insert_error := None |}.

Definition demo_rejected (row : NewProject) : InsertResponse :=
  {| insert_data := None; insert_error := Some "duplicate key value" |}.

Definition demo_ctx : MyContext := {| from_id := 1; chat_id := 5 |}.


Definition demo_world (twitterInput githubInput : string) : World :=
  {| inbox := [text_update "Acme"; text_update "A widget maker";
               text_update twitterInput; text_update githubInput;
               photo_update ["small"; "large"]];
     trace := []; sent := 0;
     isInConversationRecord := ∅; projectRecord := ∅; activeProjectRecord := ∅ |}.

Definition demo_submission (twitterInput twitterId githubInput githubId path : string)
    : Submission :=
  {| s_user := {| username := "alice" |};
     projectName := "Acme";
     projectDescription := "A widget maker";
     twitterInput := twitterInput; twitterId := twitterId;
     githubInput := githubInput; githubId := githubId;
     s_photo := [{| file_id := "small" |}; {| file_id := "large" |}];
     s_slug := "acme";
     s_path := path;
     s_buffer := [];
     imageData := {| fullPath := "gmon.link/acme.jpg" |} |}.

(** The locals of [s] with the upload data filled in. *)
Definition with_upload (s : Submission) (path : string) (buffer : Buffer)
    (imageRes : UploadData) : Submission :=
  {| s_user := s_user s; projectName := projectName s;
     projectDescription := projectDescription s;
     twitterInput := twitterInput s; twitterId := twitterId s;
     githubInput := githubInput s; githubId := githubId s;
     s_photo := s_photo s; s_slug := s_slug s;
     s_path := path; s_buffer := buffer; imageData := imageRes |}.

(** ** The two platforms side by side *)

(** The host part of a pattern and the class of its handle. *)
Definition host_of (platform : Platform) : string :=
  match platform with
  | twitter => "twitter.com/"
  | github => "github.com/"
  end.

Definition class_of (platform : Platform) : list (ascii * ascii) :=
  match platform with
  | twitter => word_class
  | github => word_dash_class
  end.

(** A non-empty string of characters of the platform's class. *)
Definition is_handle_of (platform : Platform) (h : string) : bool :=
  truthy h && all_chars (in_ranges (class_of platform)) h.

(** Where a handle stops: at the end of the input or at a character
    outside the class. *)
Definition stops_handle (platform : Platform) (rest : string) : bool :=
  match rest with
  | EmptyString => true
  | String c _ => negb (in_ranges (class_of platform) c)
  end.

(** ** What every step of the flow keeps *)

(** An action keeps a relation between the world it starts in and the
    world it leaves. *)
Definition keeps {A} (R : relation World) (m : M A) : Prop :=
  ∀ w, R w (m w).2.

(** A relation kept by every primitive of the flow other than the
    writes to the three records. *)
Record Frame (R : relation World) : Prop := {
  frame_refl : ∀ w, R w w;
  frame_trans : ∀ w1 w2 w3, R w1 w2 -> R w2 w3 -> R w1 w3;
  frame_emit : ∀ e w, R w (emit e w);
  frame_count_sent : ∀ w, R w (count_sent w);
  frame_inbox : ∀ us w, R w (set_inbox us w)
}.

Definition same_flags : relation World :=
  λ w w', isInConversationRecord w' = isInConversationRecord w.

(** The entries of every key but [uid] are as they were, in all three
    records. *)
Definition others_untouched (uid : Z) : relation World :=
  λ w w', ∀ k, k ≠ uid ->
    isInConversationRecord w' !! k = isInConversationRecord w !! k
    ∧ projectRecord w' !! k = projectRecord w !! k
    ∧ activeProjectRecord w' !! k = activeProjectRecord w !! k.



(** ** A run beside the run in which every call resolves *)

(** Two worlds that differ at most in the calls made, other than the
    inserts. *)
Definition alike (w1 w2 : World) : Prop :=
  inbox w1 = inbox w2
  ∧ sent w1 = sent w2
  ∧ isInConversationRecord w1 = isInConversationRecord w2
  ∧ projectRecord w1 = projectRecord w2
  ∧ activeProjectRecord w1 = activeProjectRecord w2
  ∧ inserts (trace w1) = inserts (trace w2).

(** The result [r1] of an action on the Bot API [api] beside the result
    [r2] of the same action with every call resolving: they end the same
    way in worlds alike, or the first ends on the rejection of its last
    call by the Bot API and has made no insert the second has not
    made. *)
Definition follows {A} (api : BotApi) (r1 r2 : Outcome A * World) : Prop :=
  (r1.1 = r2.1 ∧ alike r1.2 r2.2)
  ∨ ∃ e, r1.1 = Thrown e ∧ rejected api r1.2 e
         ∧ inserts (trace r1.2) `prefix_of` inserts (trace r2.2).

(** [m1] on [api] beside [m2]; [m2] only adds to the inserts made. *)
Definition sim {A} (api : BotApi) (m1 m2 : M A) : Prop :=
  ∀ w1 w2, alike w1 w2 ->
    follows api (m1 w1) (m2 w2)
    ∧ inserts (trace w2) `prefix_of` inserts (trace (m2 w2).2).

(** An action that makes no call on the Bot API does the same in worlds
    alike. *)
Definition steady {A} (m : M A) : Prop :=
  ∀ w1 w2, alike w1 w2 ->
    (m w1).1 = (m w2).1 ∧ alike (m w1).2 (m w2).2
    ∧ inserts (trace w2) `prefix_of` inserts (trace (m w2).2).

(** ** The image step *)

(** Every step before the image step went through: the user is known,
    the four text steps were answered and both link inputs accepted. *)
Definition reaches_image_step (svc : Services) (ctx : MyContext) (w : World) : Prop :=
  ∃ user name desc tw twitterId gh githubId,
    getUser svc (from_id ctx) = inr user
    ∧ text_answer 0 (inbox w) = Some name
    ∧ text_answer 1 (inbox w) = Some desc
    ∧ text_answer 2 (inbox w) = Some tw
    ∧ handle_of twitter tw = Some twitterId
    ∧ text_answer 3 (inbox w) = Some gh
    ∧ handle_of github gh = Some githubId.

(** The demo conversation without its photo: what the user sends at the
    image step is [last_updates]. *)
Definition demo_world_sending (last_updates : list Update) : World :=
  {| inbox := [text_update "Acme"; text_update "A widget maker";
               text_update "no"; text_update "no"] ++ last_updates;
     trace := []; sent := 0;
     isInConversationRecord := ∅; projectRecord := ∅; activeProjectRecord := ∅ |}.

(** ** Extensions *)

Definition no_dot (s : string) : bool :=
  all_chars (λ c, negb (Ascii.eqb c ".")) s.

(** ** Spellings of an address *)

(** [s'] spells [s] up to the case of its letters. *)
Fixpoint same_letters (s s' : string) : bool :=
  match s, s' with
  | EmptyString, EmptyString => true
  | String a s1, String b s1' => char_matches true a b && same_letters s1 s1'
  | _, _ => false
  end.

(** What the patterns let stand before the host: the protocol with or
    without its [s], or none, and [www.] or not. *)
Definition address_prefixes : list string :=
  ["https://www."; "https://"; "http://www."; "http://"; "www."; ""].

(** [a] spells the start of a profile address of the platform, up to its
    host and the slash after it, in upper or lower case. *)
Definition spells_address (platform : Platform) (a : string) : bool :=
  existsb (λ pfx, same_letters (pfx +:+ host_of platform) a) address_prefixes.

(** * Properties *)

(** ** Running the waits *)

Lemma form_text_loop_run msg h us w :
  form_text_loop (void (ctx_reply resolving msg h)) us w =
  match next_text us with
  | Some (s, rest) => (Value s, set_inbox rest (replied (text_skips us) msg h w))
  | None => (Suspended, set_inbox [] (replied (text_skips us) msg h w))
  end.
Proof.
  revert w. induction us as [|u us IH]; intros w; simpl.
  - unfold set_inbox, replied; simpl. by rewrite app_nil_r.
  - destruct (text_of u) eqn:E.
    + unfold set_inbox, replied; simpl. by rewrite app_nil_r.
    + unfold void, ctx_reply, resolving, mbind, M_bind, bind, mret, M_ret, ret. rewrite IH.
      destruct (next_text us) as [[s rest]|];
        unfold set_inbox, replied, emit, count_sent; simpl;
        by rewrite <- app_assoc, Nat.add_succ_r.
Qed.

Lemma form_text_run msg h w :
  form_text (void (ctx_reply resolving msg h)) w =
  match next_text (inbox w) with
  | Some (s, rest) => (Value s, set_inbox rest (replied (text_skips (inbox w)) msg h w))
  | None => (Suspended, set_inbox [] (replied (text_skips (inbox w)) msg h w))
  end.
Proof. apply form_text_loop_run. Qed.

Lemma waitFor_loop_run matches us w :
  waitFor_loop matches us w =
  match next_photo matches us with
  | Some (u, rest) => (Value u, set_inbox rest w)
  | None => (Suspended, set_inbox [] w)
  end.
Proof.
  induction us as [|u us IH]; simpl; [done|]. by destruct (matches u).
Qed.

Lemma waitFor_run matches w :
  waitFor matches w =
  match next_photo matches (inbox w) with
  | Some (u, rest) => (Value u, set_inbox rest w)
  | None => (Suspended, set_inbox [] w)
  end.
Proof. apply waitFor_loop_run. Qed.



(** The answers of a run, one equation per wait. *)
Lemma text_answers_inv us name desc tw gh :
  text_answer 0 us = Some name ->
  text_answer 1 us = Some desc ->
  text_answer 2 us = Some tw ->
  text_answer 3 us = Some gh ->
  ∃ us1 us2 us3 us4,
    next_text us = Some (name, us1) ∧ next_text us1 = Some (desc, us2)
    ∧ next_text us2 = Some (tw, us3) ∧ next_text us3 = Some (gh, us4)
    ∧ after_texts 4 us = us4.
Proof.
  unfold text_answer. simpl.
  destruct (next_text us) as [[n us1]|] eqn:E1; [|cbn; congruence].
  destruct (next_text us1) as [[d us2]|] eqn:E2; [|cbn; congruence].
  destruct (next_text us2) as [[t us3]|] eqn:E3; [|cbn; congruence].
  destruct (next_text us3) as [[g us4]|] eqn:E4; [|cbn; congruence].
  cbn. intros [= ->] [= ->] [= ->] [= ->]. by exists us1, us2, us3, us4.
Qed.

(** ** Reading a trace *)

Lemma inserts_app es1 es2 : inserts (es1 ++ es2) = inserts es1 ++ inserts es2.
Proof. apply omap_app. Qed.


Lemma effects_app es1 es2 : effects (es1 ++ es2) = effects es1 ++ effects es2.
Proof. apply List.filter_app. Qed.

Lemma effects_replicate_Reply n text html : effects (replicate n (Reply text html)) = [].
Proof. induction n; [done|]. simpl. apply IHn. Qed.

Lemma inserts_effects es : inserts (effects es) = inserts es.
Proof.
  induction es as [|e es IH]; [done|].
  destruct e; simpl; try apply IH. unfold inserts in *. simpl. by rewrite IH.
Qed.

Lemma last_app_Some {A} (l1 l2 : list A) y : last l2 = Some y -> last (l1 ++ l2) = Some y.
Proof. intros E. by rewrite last_app, E. Qed.

Lemma last_cons_Some {A} (x : A) l y : last l = Some y -> last (x :: l) = Some y.
Proof. intros E. by rewrite last_cons, E. Qed.

(** ** Running the flow, one bind at a time *)

Lemma bind_step {A B} (m : M A) (k : A -> M B) w r res :
  m w = r ->
  match r with
  | (Value a, w') => k a w'
  | (Returned, w') => (Returned, w')
  | (Thrown e, w') => (Thrown e, w')
  | (Suspended, w') => (Suspended, w')
  end = res ->
  (m ≫= k) w = res.
Proof. intros <- <-. reflexivity. Qed.

Lemma try_catch_assign_step {A} (unassigned : A) (before : M A) (after : A -> M unit)
    (handler : Exn -> M unit) w r res :
  before w = r ->
  match r with
  | (Value a, w') => catching a (after a) handler w'
  | (Returned, w') => (Returned, w')
  | (Thrown e, w') => (handler e ≫= λ _, mret unassigned) w'
  | (Suspended, w') => (Suspended, w')
  end = res ->
  try_catch_assign unassigned before after handler w = res.
Proof. intros <- <-. reflexivity. Qed.

Lemma catching_step {A} (x : A) (block : M unit) (handler : Exn -> M unit) w r res :
  block w = r ->
  match r with
  | (Value _, w') => (Value x, w')
  | (Returned, w') => (Returned, w')
  | (Thrown e, w') => (handler e ≫= λ _, mret x) w'
  | (Suspended, w') => (Suspended, w')
  end = res ->
  catching x block handler w = res.
Proof. intros <- <-. reflexivity. Qed.

Lemma form_text_value msg h w us s rest :
  next_text us = Some (s, rest) ->
  inbox w = us ->
  form_text (void (ctx_reply resolving msg h)) w =
  (Value s, set_inbox rest (replied (text_skips us) msg h w)).
Proof. intros E <-. by rewrite form_text_run, E. Qed.

Lemma form_text_suspended msg h w us :
  next_text us = None ->
  inbox w = us ->
  form_text (void (ctx_reply resolving msg h)) w =
  (Suspended, set_inbox [] (replied (text_skips us) msg h w)).
Proof. intros E <-. by rewrite form_text_run, E. Qed.

Lemma waitFor_value matches w us u rest :
  next_photo matches us = Some (u, rest) ->
  inbox w = us ->
  waitFor matches w = (Value u, set_inbox rest w).
Proof. intros E <-. by rewrite waitFor_run, E. Qed.

Lemma waitFor_suspended matches w us :
  next_photo matches us = None ->
  inbox w = us ->
  waitFor matches w = (Suspended, set_inbox [] w).
Proof. intros E <-. by rewrite waitFor_run, E. Qed.

Lemma await_value {A} (r : Exn + A) a w : r = inr a -> await r w = (Value a, w).
Proof. by intros ->. Qed.

Lemma await_thrown {A} (r : Exn + A) e w : r = inl e -> await r w = (@Thrown A e, w).
Proof. by intros ->. Qed.

(** The validation of a link step, whatever it does on an invalid input. *)
Lemma link_step_value platform input (invalid : M string) id w :
  handle_of platform input = Some id ->
  (if String.prefix "http" input then
     match extractUsernameFromUrl input platform with
     | Some i => if truthy i then mret i else invalid
     | None => invalid
     end
   else mret input) w = (Value id, w).
Proof.
  unfold handle_of. destruct (String.prefix "http" input); [|by intros [= ->]].
  destruct (extractUsernameFromUrl input platform) as [i|]; [|done].
  destruct (truthy i); [|done]. by intros [= ->].
Qed.

Lemma link_step_invalid platform input (invalid : M string) w :
  handle_of platform input = None ->
  (if String.prefix "http" input then
     match extractUsernameFromUrl input platform with
     | Some i => if truthy i then mret i else invalid
     | None => invalid
     end
   else mret input) w = invalid w.
Proof.
  unfold handle_of. destruct (String.prefix "http" input); [|done].
  destruct (extractUsernameFromUrl input platform) as [i|]; [|done].
  by destruct (truthy i).
Qed.

(** The links of the inserted object, as [links_of] states them. *)
Lemma links_of_unfold twitterId githubId :
  match (if String.eqb twitterId "no" then None
         else Some ("https://twitter.com/" +:+ twitterId)) with
  | Some url =>
      if truthy url then [{| link_title := "Twitter"; link_url := url |}] else []
  | None => []
  end
  ++
  match (if String.eqb githubId "no" then None
         else Some ("https://github.com/" +:+ githubId)) with
  | Some url =>
      if truthy url then [{| link_title := "GitHub"; link_url := url |}] else []
  | None => []
  end = links_of twitterId githubId.
Proof.
  unfold links_of, link_of.
  by destruct (String.eqb twitterId "no"), (String.eqb githubId "no").
Qed.

(** ** The waits on any Bot API *)

Lemma form_text_loop_keeps (R : relation World) (otherwise : M unit) :
  Frame R -> keeps R otherwise -> ∀ us w, R w (form_text_loop otherwise us w).2.
Proof.
  intros F Hc. induction us as [|u us IH]; intros w; simpl.
  - apply (frame_inbox _ F).
  - destruct (text_of u); [apply (frame_inbox _ F)|].
    pose proof (Hc (set_inbox us w)) as H.
    assert (R w (otherwise (set_inbox us w)).2) as H'.
    { eapply (frame_trans _ F); [apply (frame_inbox _ F)|exact H]. }
    destruct (otherwise (set_inbox us w)) as [[a| |e|] w']; simpl in *; try done.
    eapply (frame_trans _ F); [exact H'|apply IH].
Qed.

Lemma form_text_keeps (R : relation World) (otherwise : M unit) :
  Frame R -> keeps R otherwise -> keeps R (form_text otherwise).
Proof. intros F Hc w. unfold form_text. by apply form_text_loop_keeps. Qed.

Lemma waitFor_keeps (R : relation World) matches : Frame R -> keeps R (waitFor matches).
Proof.
  intros F w. rewrite waitFor_run.
  destruct (next_photo matches (inbox w)) as [[u rest]|]; apply (frame_inbox _ F).
Qed.

Lemma alike_refl w : alike w w.
Proof. by repeat split. Qed.

Lemma alike_set_inbox us w1 w2 : alike w1 w2 -> alike (set_inbox us w1) (set_inbox us w2).
Proof. intros (? & ? & ? & ? & ? & ?). by repeat split. Qed.

Lemma alike_emit e w1 w2 : alike w1 w2 -> alike (emit e w1) (emit e w2).
Proof.
  intros (? & ? & ? & ? & ? & Hi). repeat split; try done.
  simpl. by rewrite !inserts_app, Hi.
Qed.

Lemma alike_count_sent w1 w2 : alike w1 w2 -> alike (count_sent w1) (count_sent w2).
Proof. intros (? & Hs & ? & ? & ? & ?). repeat split; try done. simpl. by rewrite Hs. Qed.

Lemma form_text_loop_sim api (c1 c2 : M unit) :
  sim api c1 c2 ->
  ∀ us w1 w2, alike w1 w2 ->
    follows api (form_text_loop c1 us w1) (form_text_loop c2 us w2)
    ∧ inserts (trace w2) `prefix_of` inserts (trace (form_text_loop c2 us w2).2).
Proof.
  intros Hc. induction us as [|u us IH]; intros w1 w2 Ha; unfold follows; simpl.
  - split; [left; split; [done|by apply alike_set_inbox]|done].
  - destruct (text_of u).
    { split; [left; split; [done|by apply alike_set_inbox]|done]. }
    destruct (Hc (set_inbox us w1) (set_inbox us w2) (alike_set_inbox us _ _ Ha))
      as [Hf Hg]. simpl in Hg.
    destruct (c1 (set_inbox us w1)) as [o1 w1'], (c2 (set_inbox us w2)) as [o2 w2'].
    unfold follows in *. simpl in *. destruct Hf as [[-> Ha']|(e & -> & Hr & Hp)].
    + destruct o2 as [a| |e|]; simpl.
      * destruct (IH w1' w2' Ha') as [Hf' Hg']. split; [done|by etrans].
      * split; [by left|done].
      * split; [by left|done].
      * split; [by left|done].
    + split.
      * right. exists e. split; [done|]. split; [done|]. simpl.
        destruct o2 as [a| |e'|]; simpl; try done.
        destruct (IH w2' w2' (alike_refl w2')) as [_ Hg']. by etrans.
      * destruct o2 as [a| |e'|]; simpl; try done.
        destruct (IH w2' w2' (alike_refl w2')) as [_ Hg']. by etrans.
Qed.

Lemma form_text_sim api (c1 c2 : M unit) :
  sim api c1 c2 -> sim api (form_text c1) (form_text c2).
Proof.
  intros Hc w1 w2 Ha. unfold form_text.
  destruct Ha as (Hi & Ha). rewrite Hi. apply form_text_loop_sim; [done|].
  by split.
Qed.

Lemma waitFor_steady matches : steady (waitFor matches).
Proof.
  intros w1 w2 Ha. rewrite !waitFor_run.
  destruct Ha as (Hi & Ha). rewrite Hi.
  destruct (next_photo matches (inbox w2)) as [[u rest]|]; simpl;
    (split; [done|]); (split; [|done]); apply alike_set_inbox; by split.
Qed.

Opaque form_text waitFor.

Ltac rewrite_heads :=
  repeat match goal with
         | H : ?x = _ |- context [match ?x with _ => _ end] => rewrite H
         | H : ?x = _ |- context [if ?x then _ else _] => rewrite H
         end.

Ltac head_simpl :=
  cbv beta iota zeta
      delta [tell call resolving sendTipMessage ctx_reply editMessageText
             ret mret M_ret return_ throw
             message_id
             emit count_sent set_inbox replied set_isInConversationRecord
             set_projectRecord set_activeProjectRecord
             inbox trace sent isInConversationRecord projectRecord activeProjectRecord].

(** Runs a goal [m w = r] as far as the hypotheses tell the results of
    the calls. *)
Ltac exec :=
  head_simpl;
  lazymatch goal with
  | |- (_ ≫= _) _ = _ => eapply bind_step; [exec | exec]
  | |- try_catch_assign _ _ _ _ _ = _ => eapply try_catch_assign_step; [exec | exec]
  | |- catching _ _ _ _ = _ => eapply catching_step; [exec | exec]
  | |- form_text _ _ = _ =>
      match goal with
      | H : next_text _ = Some _ |- _ =>
          solve [eapply form_text_value; [exact H | reflexivity]]
      | H : next_text _ = None |- _ =>
          solve [eapply form_text_suspended; [exact H | reflexivity]]
      end
  | |- waitFor _ _ = _ =>
      match goal with
      | H : next_photo _ _ = Some _ |- _ =>
          solve [eapply waitFor_value; [exact H | reflexivity]]
      | H : next_photo _ _ = None |- _ =>
          solve [eapply waitFor_suspended; [exact H | reflexivity]]
      end
  | |- await _ _ = _ =>
      first [ solve [eapply await_value; eassumption]
            | solve [eapply await_thrown; eassumption] ]
  | |- (if String.prefix _ _ then _ else _) _ = _ =>
      first [ solve [eapply link_step_value; eassumption]
            | eapply eq_trans; [eapply link_step_invalid; eassumption | exec]
            | idtac ]
  | |- (_, _) = _ => reflexivity
  | |- _ => first [ progress rewrite_heads; exec | idtac ]
  end.

(** What a run added to a world, computed from the world it ended in. *)
Ltac calc_emitted :=
  unfold emitted; head_simpl; rewrite <- ?app_assoc;
  first [rewrite drop_app_length | rewrite drop_all].

Ltac solve_last :=
  first [ reflexivity
        | apply last_app_Some; solve_last
        | apply last_cons_Some; solve_last ].

Lemma createProject_submitted svc ctx w s :
  submitted svc ctx w s ->
  let row := row_of ctx s in
  let response := db_insert svc row in
  ∃ o w' mid,
    createProject resolving svc ctx w = (o, w')
    ∧ effects (emitted w w') =
      [StorageUpload "gmon.link" (fileName_of (s_slug s) (fileExtension_of (s_path s)))
         (s_buffer s) true (contentType_of svc (fileExtension_of (s_path s)));
       status ctx mid "✅ Image uploaded successfully!";
       status ctx mid "🎉 Image uploaded successfully!";
       ConsoleLog (fullPath (imageData s));
       status ctx mid "⏳ We're creating your project...";
       Insert "projects" row response]
      ++ (if insert_ok response then
            [EditMessageText (chat_id ctx) mid
               ("🎉 <b>Project created successfully!</b> Here's the link to the project: "
                +:+ project_anchor (s_slug s))
               true
               [[{| button_text := "Add a Link"; callback_data := "create-link" |}]];
             SendMessage (alertsChannelId svc)
               (username (s_user s) +:+ " created a new project. "
                +:+ project_anchor (s_slug s))
               true false]
          else [])
    ∧ match insert_error response, insert_data response with
      | None, Some data =>
          o = Value tt
          ∧ projectRecord w' = <[from_id ctx := data]> (projectRecord w)
          ∧ activeProjectRecord w' = <[from_id ctx := project_id data]> (activeProjectRecord w)
      | _, _ =>
          o = Thrown (Error (insert_error response))
          ∧ last (emitted w w') =
            Some (Reply "An error occurred while creating the project. Please try again." false)
          ∧ projectRecord w' = projectRecord w
          ∧ activeProjectRecord w' = activeProjectRecord w
      end.
Proof.
  intros [(Hu & H0 & H1 & H2 & Ht & H3 & Hg & Hp & Hs) Hup]. cbv zeta.
  destruct (text_answers_inv _ _ _ _ _ H0 H1 H2 H3)
    as (us1 & us2 & us3 & us4 & E1 & E2 & E3 & E4 & E5).
  unfold photo_answer in Hp. rewrite E5 in Hp.
  destruct (next_photo (message_photo svc) us4) as [[u us5]|] eqn:E6; [|done].
  unfold upload_succeeds in Hup.
  destruct Hup as (size & image & resp & uploaded & U1 & U2 & U3 & U4 & U5 & U6 & U7 & U8 & U9).
  unfold insert_ok.
  destruct (insert_error (db_insert svc (row_of ctx s))) as [err|] eqn:Ie;
    [|destruct (insert_data (db_insert svc (row_of ctx s))) as [data|] eqn:Id].
  all: do 3 eexists; split;
    [ unfold createProject; exec; rewrite ?links_of_unfold;
      match goal with
      | |- context [db_insert _ ?r] => change r with (row_of ctx s)
      end; exec
    | ].
  all: split; [calc_emitted; rewrite ?effects_app, ?effects_replicate_Reply; reflexivity|].
  all: repeat split; try reflexivity.
  all: calc_emitted; solve_last.
Qed.
(** The body of [answered], one hypothesis per step. *)
Ltac answered_inv H :=
  let Hu := fresh "Hu" in
  let H0 := fresh "H0" in
  let H1 := fresh "H1" in
  let H2 := fresh "H2" in
  let H3 := fresh "H3" in
  let Ht := fresh "Ht" in
  let Hg := fresh "Hg" in
  let Hp := fresh "Hp" in
  let Hs := fresh "Hs" in
  let us1 := fresh "us1" in
  let us2 := fresh "us2" in
  let us3 := fresh "us3" in
  let us4 := fresh "us4" in
  let us5 := fresh "us5" in
  let u := fresh "u" in
  let E1 := fresh "E1" in
  let E2 := fresh "E2" in
  let E3 := fresh "E3" in
  let E4 := fresh "E4" in
  let E5 := fresh "E5" in
  let E6 := fresh "E6" in
  destruct H as (Hu & H0 & H1 & H2 & Ht & H3 & Hg & Hp & Hs);
  destruct (text_answers_inv _ _ _ _ _ H0 H1 H2 H3)
    as (us1 & us2 & us3 & us4 & E1 & E2 & E3 & E4 & E5);
  unfold photo_answer in Hp; rewrite E5 in Hp;
  destruct (next_photo _ us4) as [[u us5]|] eqn:E6; [|done].

Lemma createProject_upload_failed svc ctx w s e :
  answered svc ctx w s ->
  upload_fails svc (s_slug s) (s_photo s) e ->
  ∃ w' mid pre,
    createProject resolving svc ctx w =
    (Thrown (TypeError "Cannot read properties of undefined (reading 'fullPath')"), w')
    ∧ effects (emitted w w') =
      pre ++ [ConsoleError e;
              status ctx mid "❌ Sorry, there was an error uploading your image.";
              status ctx mid "🎉 Image uploaded successfully!"]
    ∧ inserts pre = []
    ∧ projectRecord w' = projectRecord w
    ∧ activeProjectRecord w' = activeProjectRecord w.
Proof.
  intros Ha Hf. answered_inv Ha.
  assert (truthy "" = false) as Hempty by reflexivity.
  destruct Hf as [U1|size e U1 U2|size image e U1 U2 U3|size image resp e U1 U2 U3 U4
                 |size image resp buffer U1 U2 U3 U4 [U5|U5]
                 |size image resp buffer path e U1 U2 U3 U4 U5 U6 U7
                 |size image resp buffer path uploaded error U1 U2 U3 U4 U5 U6 U7 U8].
  1-6: do 2 eexists; exists [].
  7-8: do 2 eexists; eexists [_].
  all: split; [unfold createProject; exec|].
  all: split; [calc_emitted; rewrite ?effects_app, ?effects_replicate_Reply; reflexivity|].
  all: by repeat split.
Qed.

Lemma createProject_upload_empty svc ctx w s :
  answered svc ctx w s ->
  upload_stores svc (s_slug s) (s_photo s) (s_path s) (s_buffer s) None ->
  ∃ w' mid,
    createProject resolving svc ctx w =
    (Thrown (TypeError "Cannot read properties of null (reading 'fullPath')"), w')
    ∧ effects (emitted w w') =
      [StorageUpload "gmon.link" (fileName_of (s_slug s) (fileExtension_of (s_path s)))
         (s_buffer s) true (contentType_of svc (fileExtension_of (s_path s)));
       status ctx mid "✅ Image uploaded successfully!";
       status ctx mid "🎉 Image uploaded successfully!"]
    ∧ projectRecord w' = projectRecord w
    ∧ activeProjectRecord w' = activeProjectRecord w.
Proof.
  intros Ha (size & image & resp & uploaded & U1 & U2 & U3 & U4 & U5 & U6 & U7 & U8 & U9).
  answered_inv Ha.
  do 2 eexists. split; [unfold createProject; exec|].
  split; [calc_emitted; rewrite ?effects_app, ?effects_replicate_Reply; reflexivity|].
  by repeat split.
Qed.


Lemma createProject_invalid_twitter svc ctx w user tw :
  getUser svc (from_id ctx) = inr user ->
  text_answer 2 (inbox w) = Some tw ->
  handle_of twitter tw = None ->
  ∃ w',
    createProject resolving svc ctx w = (Returned, w')
    ∧ last (emitted w w') =
      Some (Reply "⚠️ The provided Twitter URL is invalid. Please try again or type 'no'." false)
    ∧ effects (emitted w w') = []
    ∧ projectRecord w' = projectRecord w
    ∧ activeProjectRecord w' = activeProjectRecord w.
Proof.
  intros Hu H2 Ht. unfold text_answer in H2. simpl in H2.
  destruct (next_text (inbox w)) as [[name us1]|] eqn:E1; [|done].
  destruct (next_text us1) as [[desc us2]|] eqn:E2; [|done].
  destruct (next_text us2) as [[tw' us3]|] eqn:E3; [|done].
  injection H2 as ->.
  eexists. split; [unfold createProject; exec|].
  split; [calc_emitted; solve_last|].
  split; [calc_emitted; rewrite ?effects_app, ?effects_replicate_Reply; reflexivity|].
  by split.
Qed.

Lemma createProject_invalid_github svc ctx w user tw twitterId gh :
  getUser svc (from_id ctx) = inr user ->
  text_answer 2 (inbox w) = Some tw ->
  handle_of twitter tw = Some twitterId ->
  text_answer 3 (inbox w) = Some gh ->
  handle_of github gh = None ->
  ∃ w',
    createProject resolving svc ctx w = (Returned, w')
    ∧ last (emitted w w') =
      Some (Reply "⚠️ The provided GitHub URL is invalid. Please try again or type 'no'." false)
    ∧ effects (emitted w w') = []
    ∧ projectRecord w' = projectRecord w
    ∧ activeProjectRecord w' = activeProjectRecord w.
Proof.
  intros Hu H2 Ht H3 Hg. unfold text_answer in H2, H3. simpl in H2, H3.
  destruct (next_text (inbox w)) as [[name us1]|] eqn:E1; [|done].
  destruct (next_text us1) as [[desc us2]|] eqn:E2; [|done].
  destruct (next_text us2) as [[tw' us3]|] eqn:E3; [|done].
  destruct (next_text us3) as [[gh' us4]|] eqn:E4; [|done].
  injection H2 as ->. injection H3 as ->.
  eexists. split; [unfold createProject; exec|].
  split; [calc_emitted; solve_last|].
  split; [calc_emitted; rewrite ?effects_app, ?effects_replicate_Reply; reflexivity|].
  by split.
Qed.

(** The [try] block of the image step either runs to its end or throws. *)
Lemma upload_cases svc slug photo :
  (∃ path buffer data, upload_stores svc slug photo path buffer data)
  ∨ (∃ e, upload_fails svc slug photo e).
Proof.
  destruct (last photo) as [size|] eqn:U1;
    [|right; eexists; by apply fails_no_size].
  destruct (getFile svc (file_id size)) as [e|image] eqn:U2;
    [right; eexists; by eapply fails_getFile|].
  destruct (fetch svc (projectImage_of svc image)) as [e|response] eqn:U3;
    [right; eexists; by eapply fails_fetch|].
  destruct (arrayBuffer response) as [e|buffer] eqn:U4;
    [right; eexists; by eapply fails_arrayBuffer|].
  destruct (file_path image) as [path|] eqn:U5;
    [|right; eexists; eapply fails_no_file_path; eauto].
  destruct path as [|c path];
    [right; eexists; eapply fails_no_file_path; eauto|].
  destruct (storage_upload svc (fileName_of slug (fileExtension_of (String c path))) buffer
              (contentType_of svc (fileExtension_of (String c path)))) as [e|uploaded] eqn:U7;
    [right; eexists; by eapply fails_upload_rejected|].
  destruct (upload_error uploaded) as [error|] eqn:U8;
    [right; eexists; by eapply fails_upload_error|].
  left. exists (String c path), buffer, (upload_data uploaded).
  by exists size, image, response, uploaded.
Qed.



(** ** Matching the profile patterns *)

Lemma substring_all s : String.substring 0 (String.length s) s = s.
Proof. induction s as [|c s IH]; [done|]. simpl. by rewrite IH. Qed.

Lemma consumed_all s : consumed s "" = s.
Proof. unfold consumed. simpl. rewrite Nat.sub_0_r. apply substring_all. Qed.

Section Greedy.
Context {R : Type}.
Variables (ignoreCase : bool) (ranges : list (ascii * ascii)).

(** A run of class characters up to the end of the input is taken whole
    when what follows the repetition accepts the empty rest. *)
Lemma repeat_matcher_class_all (h : string) (fuel : nat) cap (c : cont R) z :
  all_chars (in_ranges ranges) h = true ->
  (String.length h <= fuel)%nat ->
  c "" cap = Some z ->
  repeat_matcher (rmatch ignoreCase (Class ranges)) fuel h cap c = Some z.
Proof.
  revert fuel. induction h as [|a h IH]; intros fuel Hall Hfuel Hc.
  - destruct fuel; simpl; by rewrite ?Hc.
  - destruct fuel as [|fuel]; [simpl in Hfuel; lia|].
    simpl in Hall. apply andb_prop in Hall as [Ha Hall].
    simpl. unfold class_matches. rewrite Ha. simpl.
    destruct (String.length h =? S (String.length h))%nat eqn:E.
    + apply Nat.eqb_eq in E. lia.
    + rewrite IH; [done|done| |done]. simpl in Hfuel. lia.
Qed.

Lemma rmatch_plus_class_all h cap (c : cont R) z :
  truthy h = true ->
  all_chars (in_ranges ranges) h = true ->
  c "" cap = Some z ->
  rmatch ignoreCase (Plus (Class ranges)) h cap c = Some z.
Proof.
  destruct h as [|a h]; [done|]. intros _ Hall Hc.
  simpl in Hall. apply andb_prop in Hall as [Ha Hall].
  simpl. unfold class_matches. rewrite Ha. simpl.
  by apply repeat_matcher_class_all.
Qed.
End Greedy.

Lemma rmatch_capture_handle ranges h :
  truthy h = true ->
  all_chars (in_ranges ranges) h = true ->
  rmatch true (Capture (Plus (Class ranges))) h None (λ _ cap, Some cap) = Some (Some h).
Proof.
  intros Ht Hall. change (rmatch true (Capture (Plus (Class ranges))) h None (λ _ cap, Some cap))
    with (rmatch true (Plus (Class ranges)) h None (λ y _, Some (Some (consumed h y)))).
  apply rmatch_plus_class_all; [done|done|]. by rewrite consumed_all.
Qed.

Lemma regex_exec_at_start ignoreCase r s groups :
  rmatch ignoreCase r s None (λ _ cap, Some cap) = Some groups ->
  regex_exec ignoreCase r s = Some groups.
Proof. intros E. destruct s; simpl; by rewrite E. Qed.

Lemma rmatch_url_prefix host r x (c : cont (option string)) z pfx :
  pfx ∈ url_spellings ->
  host ∈ ["twitter.com/"; "github.com/"] ->
  rmatch true r x None c = Some z ->
  rmatch true (url_prefix (Seq (lit host) r)) (pfx +:+ host +:+ x) None c = Some z.
Proof.
  intros Hp Hh E. unfold url_spellings in Hp.
  repeat (apply elem_of_cons in Hp as [->|Hp]); [| | | |by apply elem_of_nil in Hp];
  repeat (apply elem_of_cons in Hh as [->|Hh]); try (by apply elem_of_nil in Hh);
  simpl; change ("" +:+ x) with x; by rewrite E.
Qed.

Lemma extract_twitter_handle pfx h :
  pfx ∈ url_spellings ->
  is_handle h = true ->
  extractUsernameFromUrl (pfx +:+ "twitter.com/" +:+ h) twitter = Some h.
Proof.
  intros Hp Hh. apply andb_prop in Hh as [Ht Hall].
  unfold extractUsernameFromUrl, twitter_regex.
  rewrite (regex_exec_at_start _ _ _ (Some h)); [done|].
  apply rmatch_url_prefix; [done|by left|]. by apply rmatch_capture_handle.
Qed.

(** ** Runs read through [outcome], [final] and [events] *)

Lemma run_of svc ctx w o w' :
  createProject resolving svc ctx w = (o, w') ->
  outcome svc ctx w = o ∧ final svc ctx w = w' ∧ events svc ctx w = emitted w w'.
Proof. intros E. unfold events, final, outcome. by rewrite E. Qed.

Lemma submitted_inserts svc ctx w s :
  submitted svc ctx w s ->
  inserts (events svc ctx w) = [(row_of ctx s, db_insert svc (row_of ctx s))].
Proof.
  intros Hs. destruct (createProject_submitted svc ctx w s Hs) as (o & w' & mid & Hr & He & _).
  apply run_of in Hr as (_ & _ & ->). rewrite <- inserts_effects, He, inserts_app.
  by destruct (insert_ok _).
Qed.

Lemma submitted_inserted_rows svc ctx w s :
  submitted svc ctx w s -> inserted_rows svc ctx w = [row_of ctx s].
Proof. intros Hs. unfold inserted_rows. by rewrite (submitted_inserts _ _ _ s). Qed.

(** ** The links of a row *)

Lemma link_for_twitter ctx s :
  link_for "Twitter" (row_of ctx s) = link_url <$> link_of twitter (twitterId s).
Proof.
  unfold link_for, row_of, links_of, link_of. simpl.
  by destruct (String.eqb (twitterId s) "no"), (String.eqb (githubId s) "no").
Qed.

Lemma link_for_github ctx s :
  link_for "GitHub" (row_of ctx s) = link_url <$> link_of github (githubId s).
Proof.
  unfold link_for, row_of, links_of, link_of. simpl.
  by destruct (String.eqb (twitterId s) "no"), (String.eqb (githubId s) "no").
Qed.

Lemma titles_in_order ctx s :
  (link_title <$> links (row_of ctx s)) `sublist_of` ["Twitter"; "GitHub"].
Proof.
  unfold row_of, links_of, link_of. simpl.
  destruct (String.eqb (twitterId s) "no"), (String.eqb (githubId s) "no"); simpl;
    repeat first [apply sublist_nil | apply sublist_skip | apply sublist_cons].
Qed.

Lemma no_twitter_title ctx s :
  twitterId s = "no" -> "Twitter" ∉ (link_title <$> links (row_of ctx s)).
Proof.
  intros E. unfold row_of, links_of, link_of. simpl. rewrite E. simpl.
  destruct (String.eqb (githubId s) "no"); simpl;
    rewrite ?elem_of_cons, elem_of_nil; intuition congruence.
Qed.

Lemma no_github_title ctx s :
  githubId s = "no" -> "GitHub" ∉ (link_title <$> links (row_of ctx s)).
Proof.
  intros E. unfold row_of, links_of, link_of. simpl. rewrite E. simpl.
  destruct (String.eqb (twitterId s) "no"); simpl;
    rewrite ?elem_of_cons, elem_of_nil; intuition congruence.
Qed.

Lemma handle_of_bare platform input :
  String.prefix "http" input = false -> handle_of platform input = Some input.
Proof. intros E. unfold handle_of. by rewrite E. Qed.

Lemma handle_of_invalid platform input :
  String.prefix "http" input = true ->
  extractUsernameFromUrl input platform = None ->
  handle_of platform input = None.
Proof. intros E X. unfold handle_of. by rewrite E, X. Qed.

Lemma handle_of_url platform input id :
  String.prefix "http" input = true ->
  extractUsernameFromUrl input platform = Some id ->
  truthy id = true ->
  handle_of platform input = Some id.
Proof. intros E X T. unfold handle_of. by rewrite E, X, T. Qed.

(** ** The claims *)


(** The conversation of [demo_world] gets every run below to the image
    step, whatever the upload does. *)
Ltac demo_answered :=
  unfold answered; repeat split; vm_compute; reflexivity.

Ltac demo_submitted :=
  split; [demo_answered|];
  eexists {| file_id := "large" |}, _, _, _; repeat split; vm_compute; reflexivity.

(** C2: when the [try] block of the image step throws, the handler logs
    the error and writes the error text to the status message, and the
    flow goes on: it writes the success text and then throws on the
    unset [imageData], without an insert. *)
Theorem upload_failure_falls_through svc ctx w s e :
  answered svc ctx w s ->
  upload_fails svc (s_slug s) (s_photo s) e ->
  outcome svc ctx w
  = Thrown (TypeError "Cannot read properties of undefined (reading 'fullPath')")
  ∧ ∃ mid pre,
      effects (events svc ctx w) =
      pre ++ [ConsoleError e;
              status ctx mid "❌ Sorry, there was an error uploading your image.";
              status ctx mid "🎉 Image uploaded successfully!"]
      ∧ inserts (events svc ctx w) = [].
Proof.
  intros Ha Hf.
  destruct (createProject_upload_failed svc ctx w s e Ha Hf)
    as (w' & mid & pre & Hr & He & Hi & _).
  apply run_of in Hr as (-> & _ & ->). split; [done|]. exists mid, pre.
  split; [done|]. by rewrite <- inserts_effects, He, inserts_app, Hi.
Qed.

Lemma upload_failure_witness :
  let svc := demo_services (inr {| file_path := None |}) demo_stored demo_created in
  let w := demo_world "elonmusk" "no" in
  let s := demo_submission "elonmusk" "elonmusk" "no" "no" "" in
  answered svc demo_ctx w s
  ∧ upload_fails svc (s_slug s) (s_photo s) (Error (Some "No file path found in the image."))
  ∧ outcome svc demo_ctx w
    = Thrown (TypeError "Cannot read properties of undefined (reading 'fullPath')")
  ∧ inserts (events svc demo_ctx w) = [].
Proof.
  intros svc w s.
  assert (answered svc demo_ctx w s) as Ha by demo_answered.
  assert (upload_fails svc (s_slug s) (s_photo s)
            (Error (Some "No file path found in the image."))) as Hf.
  { eapply (fails_no_file_path _ _ _ {| file_id := "large" |}); try reflexivity.
    by left. }
  split; [exact Ha|]. split; [exact Hf|].
  destruct (upload_failure_falls_through svc demo_ctx w s _ Ha Hf) as (Ho & mid & pre & _ & Hi).
  by split.
Defined.

(** C3, as stated, fails on an address without the protocol: the helper
    still finds the handle, but the flow never calls it on an input that
    does not start with [http] and stores the whole input as the handle. *)
Lemma twitter_url_without_protocol_stored_whole :
  let svc := demo_services (demo_file "photos/file_1.jpg") demo_stored demo_created in
  let w := demo_world "twitter.com/elonmusk" "no" in
  is_handle "elonmusk" = true
  ∧ text_answer 2 (inbox w) = Some ("" +:+ "twitter.com/" +:+ "elonmusk")
  ∧ extractUsernameFromUrl "twitter.com/elonmusk" twitter = Some "elonmusk"
  ∧ link_for "Twitter" <$> inserted_rows svc demo_ctx w
    = [Some "https://twitter.com/twitter.com/elonmusk"]
  ∧ link_for "Twitter" <$> inserted_rows svc demo_ctx w
    ≠ [Some "https://twitter.com/elonmusk"].
Proof. intros svc w. repeat split; vm_compute; congruence. Qed.

(** C3, amended: for a handle of word characters the helper returns the
    handle from each of the four spellings of the address; and when the
    input carries the protocol and the handle is not ["no"], the link
    handed to the insert is [https://twitter.com/] followed by the
    handle. *)
Theorem twitter_url_handle_and_link h :
  is_handle h = true ->
  (∀ pfx, pfx ∈ url_spellings ->
          extractUsernameFromUrl (pfx +:+ "twitter.com/" +:+ h) twitter = Some h)
  ∧ (∀ svc ctx w s pfx,
       pfx ∈ ["https://"; "https://www."] ->
       h ≠ "no" ->
       submitted svc ctx w s ->
       twitterInput s = pfx +:+ "twitter.com/" +:+ h ->
       ∃ row, inserted_rows svc ctx w = [row]
              ∧ link_for "Twitter" row = Some ("https://twitter.com/" +:+ h)).
Proof.
  intros Hh. split; [intros pfx Hp; by apply extract_twitter_handle|].
  intros svc ctx w s pfx Hp Hn Hs Hin.
  exists (row_of ctx s). split; [by apply submitted_inserted_rows|].
  assert (twitterId s = h) as Hid.
  { destruct Hs as [(_ & _ & _ & _ & Ht & _) _]. rewrite Hin in Ht.
    apply andb_prop in Hh as Hh'. destruct Hh' as [Htr _].
    rewrite (handle_of_url twitter _ h) in Ht; [congruence| |apply extract_twitter_handle|done].
    - repeat (apply elem_of_cons in Hp as [->|Hp]); [done|done|by apply elem_of_nil in Hp].
    - unfold url_spellings.
      repeat (apply elem_of_cons in Hp as [->|Hp]);
        [by left|by right; left|by apply elem_of_nil in Hp].
    - done. }
  rewrite link_for_twitter, Hid. unfold link_of.
  destruct (String.eqb h "no") eqn:E; [by apply String.eqb_eq in E|done].
Qed.

Lemma twitter_url_witness :
  let svc := demo_services (demo_file "photos/file_1.jpg") demo_stored demo_created in
  let w := demo_world "https://www.twitter.com/elon_musk" "no" in
  is_handle "elon_musk" = true
  ∧ extractUsernameFromUrl "www.twitter.com/elon_musk" twitter = Some "elon_musk"
  ∧ link_for "Twitter" <$> inserted_rows svc demo_ctx w
    = [Some "https://twitter.com/elon_musk"].
Proof.
  intros svc w.
  assert (is_handle "elon_musk" = true) as Hh by reflexivity.
  destruct (twitter_url_handle_and_link "elon_musk" Hh) as [Hx Hl].
  split; [exact Hh|]. split.
  - apply (Hx "www."). unfold url_spellings. do 3 right. left.
  - destruct (Hl svc demo_ctx w
                (demo_submission "https://www.twitter.com/elon_musk" "elon_musk" "no" "no"
                   "photos/file_1.jpg")
                "https://www.") as (row & -> & Hrow).
    + right. left.
    + discriminate.
    + demo_submitted.
    + reflexivity.
    + simpl. by rewrite Hrow.
Defined.

(** ** The extension of the uploaded file *)

(** The segments of a path: one when it has no dot, else some segments
    and then the part after the last dot. *)
Lemma split_after_last_dot s :
  match after_last_dot s with
  | None => split "." s = [s]
  | Some ext => ∃ seg segs, split "." s = seg :: segs ++ [ext]
  end.
Proof.
  induction s as [|c s IH]; [done|]. simpl.
  destruct (after_last_dot s) as [ext|].
  - destruct IH as (seg & segs & ->). destruct (Ascii.eqb c "."); simpl; eauto.
    by exists "", (seg :: segs).
  - rewrite IH. destruct (Ascii.eqb c "."); [by exists "", []|done].
Qed.

(** On a path with a dot, the flow takes the extension the specification
    speaks of. *)
Lemma fileExtension_with_dot path ext :
  after_last_dot path = Some ext -> fileExtension_of path = spec_fileExtension path.
Proof.
  intros E. unfold fileExtension_of, spec_fileExtension.
  pose proof (split_after_last_dot path) as H. rewrite E in *.
  destruct H as (seg & segs & ->).
  by rewrite (last_cons_Some seg (segs ++ [ext]) ext) by apply last_snoc.
Qed.

(** On a path without one, it takes the whole path. *)
Lemma fileExtension_without_dot path :
  after_last_dot path = None -> truthy path = true -> fileExtension_of path = path.
Proof.
  intros E T. unfold fileExtension_of.
  pose proof (split_after_last_dot path) as H. rewrite E in H. rewrite H. simpl.
  by rewrite T.
Qed.

(** C4, at a path without a dot: the specification's extension is [jpg],
    the flow's is the whole path, and the file is stored under the slug
    followed by the path. *)
Theorem dotless_path_becomes_the_extension :
  let svc := demo_services (demo_file "photos/file_0") demo_stored demo_created in
  let w := demo_world "no" "no" in
  after_last_dot "photos/file_0" = None
  ∧ spec_fileExtension "photos/file_0" = "jpg"
  ∧ fileExtension_of "photos/file_0" = "photos/file_0"
  ∧ uploads (events svc demo_ctx w) = [("acme.photos/file_0", "image/jpeg")]
  ∧ uploads (events svc demo_ctx w) ≠ [("acme.jpg", "image/jpeg")].
Proof. intros svc w. repeat split; vm_compute; congruence. Qed.

(** C5: a Twitter or GitHub input that starts with [http] and yields no
    handle makes the flow reply that the address is invalid and return at
    once: the reply is the last thing the run does, nothing is inserted or
    uploaded, and [projectRecord] and [activeProjectRecord] stay as they
    were. *)
Theorem invalid_url_ends_the_flow svc ctx w user platform input :
  getUser svc (from_id ctx) = inr user ->
  link_input platform w input ->
  String.prefix "http" input = true ->
  extractUsernameFromUrl input platform = None ->
  outcome svc ctx w = Returned
  ∧ last (events svc ctx w) = Some (invalid_url_reply platform)
  ∧ effects (events svc ctx w) = []
  ∧ inserts (events svc ctx w) = []
  ∧ projectRecord (final svc ctx w) = projectRecord w
  ∧ activeProjectRecord (final svc ctx w) = activeProjectRecord w.
Proof.
  intros Hu Hin Hp Hx. pose proof (handle_of_invalid _ _ Hp Hx) as Hh.
  destruct platform; simpl in Hin.
  - destruct (createProject_invalid_twitter svc ctx w user input Hu Hin Hh)
      as (w' & Hr & Hl & He & Hp' & Ha).
    apply run_of in Hr as (-> & -> & ->).
    repeat split; try done. by rewrite <- inserts_effects, He.
  - destruct Hin as [(tw & id & H2 & Ht) H3].
    destruct (createProject_invalid_github svc ctx w user tw id input Hu H2 Ht H3 Hh)
      as (w' & Hr & Hl & He & Hp' & Ha).
    apply run_of in Hr as (-> & -> & ->).
    repeat split; try done. by rewrite <- inserts_effects, He.
Qed.

Lemma invalid_url_witness :
  let svc := demo_services (demo_file "photos/file_1.jpg") demo_stored demo_created in
  (let w := demo_world "https://x.com/elonmusk" "no" in
   link_input twitter w "https://x.com/elonmusk"
   ∧ outcome svc demo_ctx w = Returned
   ∧ last (events svc demo_ctx w) = Some (invalid_url_reply twitter)
   ∧ inserts (events svc demo_ctx w) = [])
  ∧ (let w := demo_world "elonmusk" "https://gitlab.com/acme" in
     link_input github w "https://gitlab.com/acme"
     ∧ outcome svc demo_ctx w = Returned
     ∧ last (events svc demo_ctx w) = Some (invalid_url_reply github)
     ∧ inserts (events svc demo_ctx w) = []).
Proof.
  intros svc. split; intros w.
  - assert (link_input twitter w "https://x.com/elonmusk") as Hin by reflexivity.
    destruct (invalid_url_ends_the_flow svc demo_ctx w {| username := "alice" |} twitter
                "https://x.com/elonmusk")
      as (Ho & Hl & _ & Hi & _); [reflexivity|exact Hin|reflexivity|reflexivity|].
    split; [exact Hin|]. by repeat split.
  - assert (link_input github w "https://gitlab.com/acme") as Hin.
    { split; [|reflexivity]. by exists "elonmusk", "elonmusk". }
    destruct (invalid_url_ends_the_flow svc demo_ctx w {| username := "alice" |} github
                "https://gitlab.com/acme")
      as (Ho & Hl & _ & Hi & _); [reflexivity|exact Hin|reflexivity|reflexivity|].
    split; [exact Hin|]. by repeat split.
Defined.

(** C6: when the Twitter or GitHub input is the string ["no"], the links
    handed to the insert hold no link of that platform; and the links are
    always at most a Twitter link followed by at most a GitHub link. *)
Theorem no_skips_the_platform svc ctx w s :
  submitted svc ctx w s ->
  ∃ row, inserted_rows svc ctx w = [row]
         ∧ (link_title <$> links row) `sublist_of` ["Twitter"; "GitHub"]
         ∧ (twitterInput s = "no" ->
            link_for "Twitter" row = None ∧ "Twitter" ∉ (link_title <$> links row))
         ∧ (githubInput s = "no" ->
            link_for "GitHub" row = None ∧ "GitHub" ∉ (link_title <$> links row)).
Proof.
  intros Hs. exists (row_of ctx s). split; [by apply submitted_inserted_rows|].
  split; [apply titles_in_order|].
  destruct Hs as [(_ & _ & _ & _ & Ht & _ & Hg & _) _]. split.
  - intros E. rewrite E in Ht. injection Ht as Ht.
    split; [|by apply no_twitter_title]. by rewrite link_for_twitter, <- Ht.
  - intros E. rewrite E in Hg. injection Hg as Hg.
    split; [|by apply no_github_title]. by rewrite link_for_github, <- Hg.
Qed.

Lemma no_skips_witness :
  let svc := demo_services (demo_file "photos/file_1.jpg") demo_stored demo_created in
  (let w := demo_world "no" "https://github.com/acme-oss" in
   links <$> inserted_rows svc demo_ctx w
   = [[{| link_title := "GitHub"; link_url := "https://github.com/acme-oss" |}]])
  ∧ (let w := demo_world "elonmusk" "no" in
     links <$> inserted_rows svc demo_ctx w
     = [[{| link_title := "Twitter"; link_url := "https://twitter.com/elonmusk" |}]]
     ∧ "GitHub" ∉ (link_title <$> List.concat (links <$> inserted_rows svc demo_ctx w))).
Proof.
  intros svc. split; intros w; [reflexivity|]. split; [reflexivity|].
  destruct (no_skips_the_platform svc demo_ctx w
              (demo_submission "elonmusk" "elonmusk" "no" "no" "photos/file_1.jpg"))
    as (row & -> & _ & _ & Hg); [demo_submitted|].
  simpl. rewrite app_nil_r. by apply Hg.
Defined.

(** C7: a Twitter or GitHub input that does not start with [http] and is
    not ["no"] is the handle as it stands, and the link handed to the
    insert is [https://{platform}.com/] followed by it. *)
Theorem bare_handle_is_the_handle svc ctx w s :
  submitted svc ctx w s ->
  ∃ row, inserted_rows svc ctx w = [row]
         ∧ (String.prefix "http" (twitterInput s) = false ->
            twitterInput s ≠ "no" ->
            twitterId s = twitterInput s
            ∧ link_for "Twitter" row = Some ("https://twitter.com/" +:+ twitterInput s))
         ∧ (String.prefix "http" (githubInput s) = false ->
            githubInput s ≠ "no" ->
            githubId s = githubInput s
            ∧ link_for "GitHub" row = Some ("https://github.com/" +:+ githubInput s)).
Proof.
  intros Hs. exists (row_of ctx s). split; [by apply submitted_inserted_rows|].
  destruct Hs as [(_ & _ & _ & _ & Ht & _ & Hg & _) _]. split.
  - intros Hp Hn. rewrite handle_of_bare in Ht by done. injection Ht as Ht.
    split; [done|]. rewrite link_for_twitter, <- Ht. unfold link_of.
    destruct (String.eqb (twitterInput s) "no") eqn:E; [by apply String.eqb_eq in E|done].
  - intros Hp Hn. rewrite handle_of_bare in Hg by done. injection Hg as Hg.
    split; [done|]. rewrite link_for_github, <- Hg. unfold link_of.
    destruct (String.eqb (githubInput s) "no") eqn:E; [by apply String.eqb_eq in E|done].
Qed.

Lemma bare_handle_witness :
  let svc := demo_services (demo_file "photos/file_1.jpg") demo_stored demo_created in
  let w := demo_world "elonmusk" "acme-oss" in
  link_for "Twitter" <$> inserted_rows svc demo_ctx w = [Some "https://twitter.com/elonmusk"]
  ∧ link_for "GitHub" <$> inserted_rows svc demo_ctx w = [Some "https://github.com/acme-oss"].
Proof.
  intros svc w.
  destruct (bare_handle_is_the_handle svc demo_ctx w
              (demo_submission "elonmusk" "elonmusk" "acme-oss" "acme-oss"
                 "photos/file_1.jpg"))
    as (row & -> & Ht & Hg); [demo_submitted|].
  destruct Ht as [_ Ht]; [reflexivity|discriminate|].
  destruct Hg as [_ Hg]; [reflexivity|discriminate|].
  simpl. by rewrite Ht, Hg.
Defined.

(** C8: when the insert answers with an error or without a row, the flow
    replies with the generic error text and throws; the insert was called
    once, and [projectRecord] and [activeProjectRecord] stay as they
    were. *)
Theorem insert_failure_is_fatal svc ctx w s :
  submitted svc ctx w s ->
  insert_error (db_insert svc (row_of ctx s)) ≠ None
  ∨ insert_data (db_insert svc (row_of ctx s)) = None ->
  outcome svc ctx w = Thrown (Error (insert_error (db_insert svc (row_of ctx s))))
  ∧ last (events svc ctx w)
    = Some (Reply "An error occurred while creating the project. Please try again." false)
  ∧ inserts (events svc ctx w) = [(row_of ctx s, db_insert svc (row_of ctx s))]
  ∧ projectRecord (final svc ctx w) = projectRecord w
  ∧ activeProjectRecord (final svc ctx w) = activeProjectRecord w.
Proof.
  intros Hs Hfail. pose proof (submitted_inserts _ _ _ _ Hs) as Hi.
  destruct (createProject_submitted svc ctx w s Hs) as (o & w' & mid & Hr & _ & Hm).
  apply run_of in Hr as (Ho & Hf & He). rewrite Hi, Ho, Hf, He.
  destruct (insert_error (db_insert svc (row_of ctx s))) as [err|];
    [|destruct (insert_data (db_insert svc (row_of ctx s))) as [data|]].
  - destruct Hm as (-> & Hl & Hp & Ha). by repeat split.
  - by destruct Hfail.
  - destruct Hm as (-> & Hl & Hp & Ha). by repeat split.
Qed.

Lemma insert_failure_witness :
  let svc := demo_services (demo_file "photos/file_1.jpg") demo_stored demo_rejected in
  let w := demo_world "elonmusk" "no" in
  outcome svc demo_ctx w = Thrown (Error (Some "duplicate key value"))
  ∧ last (events svc demo_ctx w)
    = Some (Reply "An error occurred while creating the project. Please try again." false)
  ∧ List.length (inserts (events svc demo_ctx w)) = 1
  ∧ projectRecord (final svc demo_ctx w) = ∅
  ∧ activeProjectRecord (final svc demo_ctx w) = ∅.
Proof.
  intros svc w.
  destruct (insert_failure_is_fatal svc demo_ctx w
              (demo_submission "elonmusk" "elonmusk" "no" "no" "photos/file_1.jpg"))
    as (Ho & Hl & Hi & Hp & Ha); [demo_submitted|by left|].
  rewrite Ho, Hl, Hi, Hp, Ha. by repeat split.
Defined.

(** C9: once the [try]/[catch] of the image step is over, the status
    message is set to the success text whatever the upload did: after the
    text of the [try] block when it ran to its end, and over the error
    text of the handler when it threw, in which case the flow then throws
    on the unset [imageData]. *)
Theorem success_text_written_after_try svc ctx w s :
  answered svc ctx w s ->
  ∃ mid pre post,
    effects (events svc ctx w)
    = pre ++ status ctx mid "🎉 Image uploaded successfully!" :: post
    ∧ ((∃ path buffer data,
          upload_stores svc (s_slug s) (s_photo s) path buffer data
          ∧ last pre = Some (status ctx mid "✅ Image uploaded successfully!"))
       ∨ (∃ e,
            upload_fails svc (s_slug s) (s_photo s) e
            ∧ (∃ pre', pre = pre' ++ [ConsoleError e;
                 status ctx mid "❌ Sorry, there was an error uploading your image."])
            ∧ post = []
            ∧ outcome svc ctx w
              = Thrown (TypeError
                          "Cannot read properties of undefined (reading 'fullPath')"))).
Proof.
  intros Ha.
  destruct (upload_cases svc (s_slug s) (s_photo s))
    as [(path & buffer & [imageRes|] & Hup)|[e Hf]].
  - destruct (createProject_submitted svc ctx w (with_upload s path buffer imageRes))
      as (o & w' & mid & Hr & He & _); [by split|].
    apply run_of in Hr as (_ & _ & ->). rewrite He.
    eexists mid, [_; _], _. split; [reflexivity|]. left. by exists path, buffer, (Some imageRes).
  - destruct (createProject_upload_empty svc ctx w
                (with_upload s path buffer {| fullPath := "" |}) Ha Hup)
      as (w' & mid & Hr & He & _).
    apply run_of in Hr as (_ & _ & ->). rewrite He.
    eexists mid, [_; _], _. split; [reflexivity|]. left. by exists path, buffer, None.
  - destruct (createProject_upload_failed svc ctx w s e Ha Hf)
      as (w' & mid & pre & Hr & He & _).
    apply run_of in Hr as (-> & _ & ->). rewrite He.
    exists mid, (pre ++ [ConsoleError e;
                   status ctx mid "❌ Sorry, there was an error uploading your image."]), [].
    split; [by rewrite <- app_assoc|]. right. exists e. repeat split; try done. by exists pre.
Qed.

Lemma success_text_witness :
  let svc := demo_services (demo_file "photos/file_1.jpg")
               (inr {| upload_data := None; upload_error := Some "Payload too large" |})
               demo_created in
  let w := demo_world "elonmusk" "no" in
  effects (events svc demo_ctx w)
  = [StorageUpload "gmon.link" "acme.jpg" [] true "image/jpeg";
     ConsoleError (StorageError "Payload too large");
     status demo_ctx 5 "❌ Sorry, there was an error uploading your image.";
     status demo_ctx 5 "🎉 Image uploaded successfully!"]
  ∧ ∃ mid pre,
      effects (events svc demo_ctx w)
      = pre ++ [status demo_ctx mid "🎉 Image uploaded successfully!"].
Proof.
  intros svc w. split; [reflexivity|].
  destruct (success_text_written_after_try svc demo_ctx w
              (demo_submission "elonmusk" "elonmusk" "no" "no" ""))
    as (mid & pre & post & He & [(path & buffer & data & Hup & _)|(e & _ & _ & -> & _)]);
    [demo_answered| |by exists mid, pre].
  destruct Hup as (size & image & response & uploaded & _ & _ & _ & _ & _ & _ & U7 & U8 & _).
  injection U7 as <-. discriminate U8.
Defined.

(** C10: the comparison with ["no"] is made on the handle, so an address
    whose handle is ["no"] gets no link either, although the input is not
    ["no"]. *)
Theorem extracted_no_is_skipped svc ctx w s :
  submitted svc ctx w s ->
  ∃ row, inserted_rows svc ctx w = [row]
         ∧ (String.prefix "http" (twitterInput s) = true ->
            extractUsernameFromUrl (twitterInput s) twitter = Some "no" ->
            twitterInput s ≠ "no"
            ∧ link_for "Twitter" row = None
            ∧ "Twitter" ∉ (link_title <$> links row))
         ∧ (String.prefix "http" (githubInput s) = true ->
            extractUsernameFromUrl (githubInput s) github = Some "no" ->
            githubInput s ≠ "no"
            ∧ link_for "GitHub" row = None
            ∧ "GitHub" ∉ (link_title <$> links row)).
Proof.
  intros Hs. exists (row_of ctx s). split; [by apply submitted_inserted_rows|].
  destruct Hs as [(_ & _ & _ & _ & Ht & _ & Hg & _) _]. split.
  - intros Hp Hx. rewrite (handle_of_url _ _ "no") in Ht by done. injection Ht as Ht.
    split; [intros E; by rewrite E in Hp|].
    split; [|by apply no_twitter_title]. by rewrite link_for_twitter, <- Ht.
  - intros Hp Hx. rewrite (handle_of_url _ _ "no") in Hg by done. injection Hg as Hg.
    split; [intros E; by rewrite E in Hp|].
    split; [|by apply no_github_title]. by rewrite link_for_github, <- Hg.
Qed.

Lemma extracted_no_witness :
  let svc := demo_services (demo_file "photos/file_1.jpg") demo_stored demo_created in
  let w := demo_world "https://twitter.com/no" "https://github.com/no" in
  extractUsernameFromUrl "https://twitter.com/no" twitter = Some "no"
  ∧ extractUsernameFromUrl "https://github.com/no" github = Some "no"
  ∧ links <$> inserted_rows svc demo_ctx w = [[]]
  ∧ link_for "Twitter" <$> inserted_rows svc demo_ctx w = [None]
  ∧ link_for "GitHub" <$> inserted_rows svc demo_ctx w = [None].
Proof.
  intros svc w. split; [reflexivity|]. split; [reflexivity|]. split; [reflexivity|].
  destruct (extracted_no_is_skipped svc demo_ctx w
              (demo_submission "https://twitter.com/no" "no" "https://github.com/no" "no"
                 "photos/file_1.jpg"))
    as (row & -> & Ht & Hg); [demo_submitted|].
  destruct Ht as (_ & Ht & _); [reflexivity|reflexivity|].
  destruct Hg as (_ & Hg & _); [reflexivity|reflexivity|].
  simpl. by rewrite Ht, Hg.
Defined.

(** * Further properties *)

(** ** What the patterns capture *)

(** Under the [i] flag the two classes match the characters they list
    and no others: they are closed under change of case. *)
Lemma class_matches_word c : class_matches true word_class c = in_ranges word_class c.
Proof. destruct c as [[] [] [] [] [] [] [] []]; reflexivity. Qed.

Lemma class_matches_word_dash c :
  class_matches true word_dash_class c = in_ranges word_dash_class c.
Proof. destruct c as [[] [] [] [] [] [] [] []]; reflexivity. Qed.

Lemma class_matches_class_of platform c :
  class_matches true (class_of platform) c = in_ranges (class_of platform) c.
Proof. destruct platform; [apply class_matches_word|apply class_matches_word_dash]. Qed.

Lemma length_append (s1 s2 : string) :
  String.length (s1 +:+ s2) = (String.length s1 + String.length s2)%nat.
Proof. induction s1 as [|c s1 IH]; [done|]. simpl. by rewrite IH. Qed.

Lemma substring_append (s1 s2 : string) :
  String.substring 0 (String.length s1) (s1 +:+ s2) = s1.
Proof. induction s1 as [|c s1 IH]; simpl; [by destruct s2|]. by rewrite IH. Qed.

Lemma consumed_append (h y : string) : consumed (h +:+ y) y = h.
Proof.
  unfold consumed. rewrite length_append.
  replace (String.length h + String.length y - String.length y)%nat
    with (String.length h) by lia.
  apply substring_append.
Qed.

Section Backtracking.
Context {R : Type}.
Variable ignoreCase : bool.

(** A match that succeeds ends in a success of its continuation. *)
Lemma repeat_matcher_success (m : matcher R) fuel x cap (c : cont R) z :
  (∀ x' cap' (c' : cont R), m x' cap' c' = Some z -> ∃ y cap'', c' y cap'' = Some z) ->
  repeat_matcher m fuel x cap c = Some z ->
  ∃ y cap', c y cap' = Some z.
Proof.
  intros Hm. revert x cap. induction fuel as [|fuel IH]; intros x cap; simpl; [eauto|].
  destruct (m x cap _) as [z0|] eqn:E; [|eauto].
  intros [= ->]. apply Hm in E as (y & cap' & E).
  destruct (String.length y =? String.length x)%nat; [done|]. by eapply IH.
Qed.

Lemma rmatch_success r x cap (c : cont R) z :
  rmatch ignoreCase r x cap c = Some z -> ∃ y cap', c y cap' = Some z.
Proof.
  revert x cap c. induction r as [|p|ranges|r1 IH1 r2 IH2|r1 IH1|r1 IH1|r1 IH1];
    intros x cap c; simpl.
  - eauto.
  - destruct x as [|a y]; [done|]. destruct (char_matches _ _ _); [eauto|done].
  - destruct x as [|a y]; [done|]. destruct (class_matches _ _ _); [eauto|done].
  - intros E. apply IH1 in E as (y & cap' & E). by eapply IH2.
  - destruct (rmatch ignoreCase r1 x cap c) as [z0|] eqn:E; [|eauto].
    intros [= ->]. by eapply IH1.
  - intros E. apply IH1 in E as (y & cap' & E).
    eapply repeat_matcher_success; [|exact E]. intros x' cap'' c'. apply IH1.
  - intros E. apply IH1 in E as (y & cap' & E). eauto.
Qed.

(** What a repeated class takes is a run of characters of the class. *)
Lemma repeat_matcher_class_inv ranges fuel x cap (c : cont R) z :
  repeat_matcher (rmatch ignoreCase (Class ranges)) fuel x cap c = Some z ->
  ∃ h y, x = h +:+ y
         ∧ all_chars (class_matches ignoreCase ranges) h = true
         ∧ c y cap = Some z.
Proof.
  revert x. induction fuel as [|fuel IH]; intros x; simpl; [by exists "", x|].
  destruct x as [|a x]; [by exists "", ""|].
  destruct (class_matches ignoreCase ranges a) eqn:Ha; [|by exists "", (String a x)].
  destruct (String.length x =? String.length (String a x))%nat; [by exists "", (String a x)|].
  destruct (repeat_matcher _ fuel x cap c) as [z0|] eqn:E; [|by exists "", (String a x)].
  intros [= ->]. apply IH in E as (h & y & -> & Hall & Hc).
  exists (String a h), y. simpl. by rewrite Ha, Hall.
Qed.

Lemma rmatch_plus_class_inv ranges x cap (c : cont R) z :
  rmatch ignoreCase (Plus (Class ranges)) x cap c = Some z ->
  ∃ h y, x = h +:+ y
         ∧ truthy h = true
         ∧ all_chars (class_matches ignoreCase ranges) h = true
         ∧ c y cap = Some z.
Proof.
  simpl. destruct x as [|a x]; [done|].
  destruct (class_matches ignoreCase ranges a) eqn:Ha; [|done].
  intros E. apply repeat_matcher_class_inv in E as (h & y & -> & Hall & Hc).
  exists (String a h), y. simpl. by rewrite Ha, Hall.
Qed.

(** A run of class characters that stops is taken whole when what follows
    the repetition accepts the rest. *)
Lemma repeat_matcher_class_run ranges (h rest : string) (fuel : nat) cap (c : cont R) z :
  all_chars (class_matches ignoreCase ranges) h = true ->
  match rest with
  | EmptyString => True
  | String b _ => class_matches ignoreCase ranges b = false
  end ->
  (String.length h <= fuel)%nat ->
  c rest cap = Some z ->
  repeat_matcher (rmatch ignoreCase (Class ranges)) fuel (h +:+ rest) cap c = Some z.
Proof.
  intros Hall Hstop. revert fuel Hall. induction h as [|a h IH]; intros fuel Hall Hfuel Hc.
  - change ("" +:+ rest) with rest. destruct fuel as [|fuel]; simpl; [done|].
    destruct rest as [|b rest]; [by rewrite Hc|]. by rewrite Hstop, Hc.
  - destruct fuel as [|fuel]; [simpl in Hfuel; lia|].
    simpl in Hall. apply andb_prop in Hall as [Ha Hall].
    simpl. rewrite Ha.
    destruct (String.length (h +:+ rest) =? S (String.length (h +:+ rest)))%nat eqn:E.
    + apply Nat.eqb_eq in E. lia.
    + rewrite IH; [done|done| |done]. simpl in Hfuel. lia.
Qed.

(** A repetition never fails when what follows it never does. *)
Lemma repeat_matcher_total (m : matcher R) fuel x cap (c : cont R) :
  (∀ y cap', is_Some (c y cap')) -> is_Some (repeat_matcher m fuel x cap c).
Proof. intros Hc. destruct fuel; simpl; [done|]. by destruct (m x cap _). Qed.
End Backtracking.

(** The capture of the handle, from a match at the start of [x]. *)
Lemma rmatch_capture_inv ranges x cap groups :
  rmatch true (Capture (Plus (Class ranges))) x cap (λ _ cap', Some cap') = Some groups ->
  ∃ h, groups = Some h ∧ truthy h = true
       ∧ all_chars (class_matches true ranges) h = true.
Proof.
  intros E.
  change (rmatch true (Plus (Class ranges)) x cap (λ y _, Some (Some (consumed x y)))
          = Some groups) in E.
  apply rmatch_plus_class_inv in E as (h & y & -> & Ht & Hall & [= <-]).
  exists h. by rewrite consumed_append.
Qed.

Lemma rmatch_capture_run ranges h rest cap :
  truthy h = true ->
  all_chars (class_matches true ranges) h = true ->
  match rest with
  | EmptyString => True
  | String b _ => class_matches true ranges b = false
  end ->
  rmatch true (Capture (Plus (Class ranges))) (h +:+ rest) cap (λ _ cap', Some cap')
  = Some (Some h).
Proof.
  intros Ht Hall Hstop.
  change (rmatch true (Plus (Class ranges)) (h +:+ rest) cap
            (λ y _, Some (Some (consumed (h +:+ rest) y))) = Some (Some h)).
  destruct h as [|a h]; [done|]. simpl in Hall. apply andb_prop in Hall as [Ha Hall].
  simpl. rewrite Ha.
  apply repeat_matcher_class_run; [done|done| |].
  - rewrite length_append. lia.
  - by rewrite (consumed_append (String a h) rest).
Qed.

Lemma regex_exec_inv ignoreCase r s groups :
  regex_exec ignoreCase r s = Some groups ->
  ∃ s', rmatch ignoreCase r s' None (λ _ cap, Some cap) = Some groups.
Proof.
  induction s as [|a s IH]; simpl.
  - destruct (rmatch _ _ _ _ _) eqn:E; [|done]. intros [= <-]. eauto.
  - destruct (rmatch _ _ _ _ _) eqn:E; [intros [= <-]; eauto|]. apply IH.
Qed.

Lemma regex_exec_after ignoreCase r pre s :
  is_Some (regex_exec ignoreCase r s) -> is_Some (regex_exec ignoreCase r (pre +:+ s)).
Proof.
  intros Hs. induction pre as [|a pre IH]; [done|]. simpl.
  by destruct (rmatch _ _ _ _ _).
Qed.

(** Every match of a profile pattern captures a handle. *)
Lemma url_pattern_inv host ranges s groups :
  regex_exec true (url_prefix (Seq (lit host) (Capture (Plus (Class ranges))))) s
  = Some groups ->
  ∃ h, groups = Some h ∧ truthy h = true
       ∧ all_chars (class_matches true ranges) h = true.
Proof.
  intros E. apply regex_exec_inv in E as (s' & E). unfold url_prefix in E.
  change (rmatch true (Opt (Seq (lit "http") (Seq (Opt (Chr "s")) (lit "://")))) s' None
            (λ y cap, rmatch true (Opt (lit "www.")) y cap
               (λ y' cap', rmatch true (lit host) y' cap'
                  (λ y'' cap'', rmatch true (Capture (Plus (Class ranges))) y'' cap''
                     (λ _ cap3, Some cap3)))) = Some groups) in E.
  apply rmatch_success in E as (y1 & cap1 & E).
  apply rmatch_success in E as (y2 & cap2 & E).
  apply rmatch_success in E as (y3 & cap3 & E).
  by eapply rmatch_capture_inv.
Qed.

Lemma all_chars_ext (p q : ascii -> bool) s :
  (∀ c, p c = q c) -> all_chars p s = all_chars q s.
Proof. intros H. induction s as [|c s IH]; [done|]. simpl. by rewrite H, IH. Qed.

Lemma extracted_is_handle url platform h :
  extractUsernameFromUrl url platform = Some h -> is_handle_of platform h = true.
Proof.
  unfold extractUsernameFromUrl, is_handle_of.
  destruct (regex_exec true _ url) as [[g|]|] eqn:E; try done. intros [= ->].
  assert (∃ h', Some h = Some h' ∧ truthy h' = true
                ∧ all_chars (class_matches true (class_of platform)) h' = true)
    as (h' & [= <-] & Ht & Hall).
  { destruct platform; eapply url_pattern_inv; exact E. }
  rewrite Ht. simpl. rewrite <- Hall. apply all_chars_ext. intros c.
  by rewrite class_matches_class_of.
Qed.

(** X1: whatever the input, a handle that [extractUsernameFromUrl]
    returns is not empty and is made of characters of the platform's
    class only. *)
Theorem extracted_handle_is_well_formed url platform h :
  extractUsernameFromUrl url platform = Some h -> is_handle_of platform h = true.
Proof. apply extracted_is_handle. Qed.

Lemma extracted_handle_witness :
  extractUsernameFromUrl "see https://github.com/acme-oss/repo?tab=1" github = Some "acme-oss"
  ∧ is_handle_of github "acme-oss" = true.
Proof.
  split; [reflexivity|].
  by apply (extracted_handle_is_well_formed "see https://github.com/acme-oss/repo?tab=1").
Defined.

Lemma stops_handle_class platform rest :
  stops_handle platform rest = true ->
  match rest with
  | EmptyString => True
  | String b _ => class_matches true (class_of platform) b = false
  end.
Proof.
  destruct rest as [|b rest]; [done|]. simpl. rewrite class_matches_class_of.
  by destruct (in_ranges _ b).
Qed.

Lemma is_handle_of_class platform h :
  is_handle_of platform h = true ->
  truthy h = true ∧ all_chars (class_matches true (class_of platform)) h = true.
Proof.
  intros [Ht Hall]%andb_prop. split; [done|]. etrans; [|exact Hall].
  apply all_chars_ext, class_matches_class_of.
Qed.

Lemma char_matches_canonical p b :
  char_matches true p b = true -> canonicalize p = canonicalize b.
Proof. unfold char_matches. by intros H%Ascii.eqb_eq. Qed.

(** Takes a spelling apart, one character at a time. *)
Ltac spell H a :=
  cbn [same_letters String.append host_of] in H;
  repeat (destruct a as [|? a]; [discriminate H|];
          cbn [same_letters] in H;
          let Hc := fresh "Hc" in
          apply andb_prop in H as [Hc H];
          apply char_matches_canonical in Hc);
  destruct a; [clear H|discriminate H].

Lemma rmatch_address platform r a x (c : cont (option string)) z :
  spells_address platform a = true ->
  rmatch true r x None c = Some z ->
  rmatch true (url_prefix (Seq (lit (host_of platform)) r)) (a +:+ x) None c = Some z.
Proof.
  intros H E. unfold spells_address, address_prefixes in H. cbn [existsb] in H.
  repeat (apply orb_prop in H as [H|H]); [..|discriminate H];
    destruct platform; spell H a;
    cbv [String.append host_of url_prefix]; cbn [rmatch lit];
    unfold char_matches;
    repeat match goal with
           | Hc : canonicalize _ = canonicalize ?b |- _ => rewrite <- Hc; clear Hc
           end;
    simpl; by rewrite ?E.
Qed.

(** X2: on an address of the platform, spelled with or without the
    protocol and [www.] and in upper or lower case, the handle is the
    run of class characters after the host, in the case it was written
    in, up to the end of the input or to the first character outside the
    class; what comes after is dropped. *)
Theorem handle_stops_at_first_foreign_character platform a h rest :
  spells_address platform a = true ->
  is_handle_of platform h = true ->
  stops_handle platform rest = true ->
  extractUsernameFromUrl (a +:+ h +:+ rest) platform = Some h.
Proof.
  intros Ha [Ht Hall]%is_handle_of_class Hstop%stops_handle_class.
  pose proof (rmatch_address platform (Capture (Plus (Class (class_of platform))))
                a (h +:+ rest) (λ _ cap, Some cap) (Some h) Ha
                (rmatch_capture_run _ h rest None Ht Hall Hstop)) as E.
  unfold extractUsernameFromUrl.
  destruct platform; by rewrite (regex_exec_at_start _ _ _ (Some h)).
Qed.

Lemma handle_stops_witness :
  extractUsernameFromUrl "HTTP://Twitter.com/Foo-Bar" twitter = Some "Foo"
  ∧ extractUsernameFromUrl "www.github.com/foo-bar/repo?tab=readme" github = Some "foo-bar".
Proof.
  split.
  - apply (handle_stops_at_first_foreign_character twitter "HTTP://Twitter.com/" "Foo" "-Bar");
      reflexivity.
  - apply (handle_stops_at_first_foreign_character github "www.github.com/" "foo-bar"
             "/repo?tab=readme"); reflexivity.
Defined.

Lemma rmatch_capture_total ranges h rest cap :
  truthy h = true ->
  all_chars (class_matches true ranges) h = true ->
  is_Some (rmatch true (Capture (Plus (Class ranges))) (h +:+ rest) cap
             (λ _ cap', Some cap')).
Proof.
  destruct h as [|a h]; [done|]. intros _ Hall. simpl in Hall.
  apply andb_prop in Hall as [Ha _]. simpl. rewrite Ha.
  by apply repeat_matcher_total.
Qed.

(** X3: the patterns are not anchored: an input that holds the host
    followed by a class character anywhere yields a handle, whatever
    stands before and after. *)
Theorem pattern_is_not_anchored platform pre h rest :
  is_handle_of platform h = true ->
  ∃ h', extractUsernameFromUrl (pre +:+ host_of platform +:+ h +:+ rest) platform = Some h'.
Proof.
  intros [Ht Hall]%is_handle_of_class.
  destruct (rmatch_capture_total (class_of platform) h rest None Ht Hall) as [z Hz].
  assert (∀ r, r = url_prefix (Seq (lit (host_of platform))
                                  (Capture (Plus (Class (class_of platform))))) ->
               ∃ h', match regex_exec true r (pre +:+ host_of platform +:+ h +:+ rest) with
                     | Some (Some g) => Some g
                     | _ => None
                     end = Some h') as H.
  { intros r ->.
    destruct (regex_exec_after true
                (url_prefix (Seq (lit (host_of platform))
                               (Capture (Plus (Class (class_of platform))))))
                pre (host_of platform +:+ h +:+ rest)) as [g Hg].
    - exists z. apply regex_exec_at_start.
      apply (rmatch_url_prefix _ _ _ _ _ ""); [do 2 right; by left| |done].
      destruct platform; [by left|right; by left].
    - rewrite Hg. apply url_pattern_inv in Hg as (h' & -> & _). by exists h'. }
  unfold extractUsernameFromUrl. destruct platform; by apply H.
Qed.

Lemma pattern_not_anchored_witness :
  extractUsernameFromUrl "https://example.com/?next=twitter.com/x&y" twitter = Some "x"
  ∧ ∃ h', extractUsernameFromUrl "https://example.com/?next=twitter.com/x&y" twitter
          = Some h'.
Proof.
  split; [reflexivity|].
  apply (pattern_is_not_anchored twitter "https://example.com/?next=" "x" "&y").
  reflexivity.
Defined.

(** ** What every step of the flow keeps *)

Lemma keeps_apply {A} (R : relation World) (m : M A) w : keeps R m -> R w (m w).2.
Proof. intros H. apply H. Qed.

Lemma bind_run {A B} (m : M A) (k : A -> M B) w :
  (m ≫= k) w =
  match m w with
  | (Value a, w') => k a w'
  | (Returned, w') => (Returned, w')
  | (Thrown e, w') => (Thrown e, w')
  | (Suspended, w') => (Suspended, w')
  end.
Proof. reflexivity. Qed.

Section Frames.
Context {R : relation World} (F : Frame R).

Lemma keeps_pure {A} (o : Outcome A) : keeps R (λ w, (o, w)).
Proof. intros w. apply (frame_refl _ F). Qed.

Lemma keeps_bind {A B} (m : M A) (k : A -> M B) :
  keeps R m -> (∀ a, keeps R (k a)) -> keeps R (m ≫= k).
Proof.
  intros Hm Hk w. rewrite bind_run. specialize (Hm w).
  destruct (m w) as [[a| |e|] w']; simpl in *; try done.
  eapply (frame_trans _ F); [exact Hm|]. apply Hk.
Qed.

Lemma keeps_catching {A} (x : A) (block : M unit) (handler : Exn -> M unit) :
  keeps R block -> (∀ e, keeps R (handler e)) -> keeps R (catching x block handler).
Proof.
  intros Hm Hk w. unfold catching. specialize (Hm w).
  destruct (block w) as [[a| |e|] w']; simpl in *; try done.
  eapply (frame_trans _ F); [exact Hm|].
  apply (keeps_bind (handler e) (λ _, mret x)); [apply Hk|].
  intros _ w''. apply (frame_refl _ F).
Qed.

Lemma keeps_try_catch_assign {A} (unassigned : A) (before : M A) (after : A -> M unit)
    (handler : Exn -> M unit) :
  keeps R before -> (∀ a, keeps R (after a)) -> (∀ e, keeps R (handler e)) ->
  keeps R (try_catch_assign unassigned before after handler).
Proof.
  intros Hm Ha Hk w. unfold try_catch_assign. specialize (Hm w).
  destruct (before w) as [[a| |e|] w']; simpl in *; try done.
  - eapply (frame_trans _ F); [exact Hm|]. by apply keeps_catching.
  - eapply (frame_trans _ F); [exact Hm|].
    apply (keeps_bind (handler e) (λ _, mret unassigned)); [apply Hk|].
    intros _ w''. apply (frame_refl _ F).
Qed.

Lemma keeps_await {A} (r : Exn + A) : keeps R (await r).
Proof. destruct r; apply keeps_pure. Qed.

Lemma keeps_tell e : keeps R (tell e).
Proof. intros w. apply (frame_emit _ F). Qed.

Lemma keeps_call api e : keeps R (call api e).
Proof. intros w. unfold call. destruct (api (trace w) e); apply (frame_emit _ F). Qed.

Lemma keeps_ctx_reply api text html : keeps R (ctx_reply api text html).
Proof.
  intros w. unfold ctx_reply. destruct (api (trace w) (Reply text html)); simpl.
  - apply (frame_emit _ F).
  - eapply (frame_trans _ F); [apply (frame_emit _ F)|apply (frame_count_sent _ F)].
Qed.

Lemma keeps_form_text (otherwise : M unit) : keeps R otherwise -> keeps R (form_text otherwise).
Proof. by apply form_text_keeps. Qed.

Lemma keeps_waitFor matches : keeps R (waitFor matches).
Proof. by apply waitFor_keeps. Qed.
End Frames.

(** Walks through an action, one construct at a time; the writes to the
    records are left to the relation at hand. *)
Ltac frame_step F :=
  lazymatch goal with
  | |- keeps _ (_ ≫= _) => apply (keeps_bind F); [|intros ?]
  | |- keeps _ (try_catch_assign _ _ _ _) =>
      apply (keeps_try_catch_assign F); [|intros ?|intros ?]
  | |- keeps _ (await _) => apply (keeps_await F)
  | |- keeps _ (form_text _) => apply (keeps_form_text F)
  | |- keeps _ (void _) => unfold void
  | |- keeps _ (waitFor _) => apply (keeps_waitFor F)
  | |- keeps _ (ctx_reply _ _ _) => apply (keeps_ctx_reply F)
  | |- keeps _ (tell _) => apply (keeps_tell F)
  | |- keeps _ (call _ _) => apply (keeps_call F)
  | |- keeps _ (sendTipMessage _) => apply (keeps_call F)
  | |- keeps _ (editMessageText _ _ _ _) => apply (keeps_call F)
  | |- keeps _ (mret _) => apply (keeps_pure F)
  | |- keeps _ return_ => apply (keeps_pure F)
  | |- keeps _ (throw _) => apply (keeps_pure F)
  | |- keeps _ (match ?x with _ => _ end) => destruct x
  | |- keeps _ (if ?x then _ else _) => destruct x
  end.

Ltac frame F := repeat frame_step F.

(** The flow keeps every such relation that its three writes keep. *)
Lemma createProject_keeps api svc ctx (R : relation World) :
  Frame R ->
  (∀ w, R w (set_isInConversationRecord (from_id ctx) true w)) ->
  (∀ v w, R w (set_projectRecord (from_id ctx) v w)) ->
  (∀ v w, R w (set_activeProjectRecord (from_id ctx) v w)) ->
  keeps R (createProject api svc ctx).
Proof.
  intros F Hflag Hproject Hactive. unfold createProject. cbv zeta. frame F.
  - intros w. apply Hflag.
  - intros w. apply Hproject.
  - intros w. apply Hactive.
Qed.

Lemma same_flags_frame : Frame same_flags.
Proof.
  split; unfold same_flags; try done.
  intros w1 w2 w3 E1 E2. by rewrite E2.
Qed.

Lemma others_untouched_frame uid : Frame (others_untouched uid).
Proof.
  split; unfold others_untouched; try done.
  intros w1 w2 w3 E1 E2 k Hk.
  destruct (E1 k Hk) as (A1 & B1 & C1), (E2 k Hk) as (A2 & B2 & C2).
  by rewrite A2, B2, C2.
Qed.


(** On any Bot API, the flag is set once [getUser] has resolved, and
    stays. *)
Lemma flag_on api svc ctx w :
  isInConversationRecord (final_on api svc ctx w)
  = match getUser svc (from_id ctx) with
    | inr _ => <[from_id ctx := true]> (isInConversationRecord w)
    | inl _ => isInConversationRecord w
    end.
Proof.
  unfold final_on, createProject. cbv zeta. rewrite bind_run.
  destruct (getUser svc (from_id ctx)) as [e|user]; [done|].
  simpl. rewrite bind_run. simpl.
  lazymatch goal with
  | |- isInConversationRecord (?m ?w1).2 = _ =>
      apply (keeps_apply same_flags m w1)
  end.
  frame same_flags_frame; by intros w0.
Qed.

Lemma others_on api svc ctx w :
  others_untouched (from_id ctx) w (final_on api svc ctx w).
Proof.
  apply (keeps_apply (others_untouched (from_id ctx))).
  apply createProject_keeps; [apply others_untouched_frame|..].
  - intros w0 k Hk. simpl. by rewrite lookup_insert_ne.
  - intros v w0 k Hk. simpl. by rewrite lookup_insert_ne.
  - intros v w0 k Hk. simpl. by rewrite lookup_insert_ne.
Qed.



(** X4: the flow sets the user's flag in [isInConversationRecord] once
    [getUser] has resolved and never clears it: however the run ends,
    the record it leaves is the one it found with the flag set.  When
    [getUser] rejects, the record is as it was. *)
Theorem conversation_flag_is_never_cleared svc ctx w :
  isInConversationRecord (final svc ctx w)
  = match getUser svc (from_id ctx) with
    | inr _ => <[from_id ctx := true]> (isInConversationRecord w)
    | inl _ => isInConversationRecord w
    end.
Proof. apply (flag_on resolving). Qed.

(** X5: every write to the three records is at the key of the user who
    started the conversation: the entries of all other users are, in
    the world a run leaves, what they were. *)
Theorem other_users_are_untouched svc ctx w k :
  k ≠ from_id ctx ->
  isInConversationRecord (final svc ctx w) !! k = isInConversationRecord w !! k
  ∧ projectRecord (final svc ctx w) !! k = projectRecord w !! k
  ∧ activeProjectRecord (final svc ctx w) !! k = activeProjectRecord w !! k.
Proof. revert k. apply (others_on resolving). Qed.

Lemma other_users_witness :
  let svc := demo_services (demo_file "photos/file_1.jpg") demo_stored demo_created in
  let w := demo_world "no" "no" in
  outcome svc demo_ctx w = Value tt
  ∧ isInConversationRecord (final svc demo_ctx w) !! 2%Z = isInConversationRecord w !! 2%Z
  ∧ projectRecord (final svc demo_ctx w) !! 2%Z = projectRecord w !! 2%Z
  ∧ activeProjectRecord (final svc demo_ctx w) !! 2%Z = activeProjectRecord w !! 2%Z.
Proof.
  intros svc w. split; [vm_compute; reflexivity|].
  apply (other_users_are_untouched svc demo_ctx w 2%Z). discriminate.
Defined.

(** ** The two records change only after an insert *)






(** ** A run beside the run in which every call resolves *)

Lemma alike_set_isInConversationRecord k v w1 w2 :
  alike w1 w2 -> alike (set_isInConversationRecord k v w1) (set_isInConversationRecord k v w2).
Proof. intros (? & ? & Hf & ? & ? & ?). repeat split; try done. simpl. by rewrite Hf. Qed.

Lemma alike_set_projectRecord k v w1 w2 :
  alike w1 w2 -> alike (set_projectRecord k v w1) (set_projectRecord k v w2).
Proof. intros (? & ? & ? & Hp & ? & ?). repeat split; try done. simpl. by rewrite Hp. Qed.

Lemma alike_set_activeProjectRecord k v w1 w2 :
  alike w1 w2 -> alike (set_activeProjectRecord k v w1) (set_activeProjectRecord k v w2).
Proof. intros (? & ? & ? & ? & Hp & ?). repeat split; try done. simpl. by rewrite Hp. Qed.

Lemma inserts_emit_prefix e (w : World) :
  inserts (trace w) `prefix_of` inserts (trace (emit e w)).
Proof. simpl. rewrite inserts_app. by apply prefix_app_r. Qed.

Lemma steady_pure {A} (o : Outcome A) : steady (λ w, (o, w)).
Proof. intros w1 w2 Ha. split; [done|]. by split. Qed.

Lemma steady_await {A} (r : Exn + A) : steady (await r).
Proof. destruct r; apply steady_pure. Qed.

Lemma steady_tell e : steady (tell e).
Proof.
  intros w1 w2 Ha. split; [done|]. split; [by apply alike_emit|].
  apply inserts_emit_prefix.
Qed.

Lemma steady_bind {A B} (m : M A) (k : A -> M B) :
  steady m -> (∀ a, steady (k a)) -> steady (m ≫= k).
Proof.
  intros Hm Hk w1 w2 Ha. rewrite !bind_run.
  destruct (Hm w1 w2 Ha) as (Ho & Ha' & Hg).
  destruct (m w1) as [o1 w1'], (m w2) as [o2 w2']. simpl in *. subst o2.
  destruct o1 as [a| |e|]; simpl; try done.
  destruct (Hk a w1' w2' Ha') as (Ho' & Ha'' & Hg').
  split; [done|]. split; [done|]. by etrans.
Qed.

Lemma steady_set_isInConversationRecord k v :
  steady (λ w, (Value tt, set_isInConversationRecord k v w)).
Proof.
  intros w1 w2 Ha. split; [done|]. by split; [apply alike_set_isInConversationRecord|].
Qed.

Lemma steady_set_projectRecord k v : steady (λ w, (Value tt, set_projectRecord k v w)).
Proof. intros w1 w2 Ha. split; [done|]. by split; [apply alike_set_projectRecord|]. Qed.

Lemma steady_set_activeProjectRecord k v :
  steady (λ w, (Value tt, set_activeProjectRecord k v w)).
Proof.
  intros w1 w2 Ha. split; [done|]. by split; [apply alike_set_activeProjectRecord|].
Qed.

Ltac steady_step :=
  lazymatch goal with
  | |- steady (_ ≫= _) => apply steady_bind; [|intros ?]
  | |- steady (await _) => apply steady_await
  | |- steady (tell _) => apply steady_tell
  | |- steady (waitFor _) => apply waitFor_steady
  | |- steady (mret _) => apply steady_pure
  | |- steady return_ => apply steady_pure
  | |- steady (throw _) => apply steady_pure
  | |- steady (λ w, (Value tt, set_isInConversationRecord _ _ w)) =>
      apply steady_set_isInConversationRecord
  | |- steady (λ w, (Value tt, set_projectRecord _ _ w)) =>
      apply steady_set_projectRecord
  | |- steady (λ w, (Value tt, set_activeProjectRecord _ _ w)) =>
      apply steady_set_activeProjectRecord
  | |- steady (match ?x with _ => _ end) => destruct x
  | |- steady (if ?x then _ else _) => destruct x
  end.

Lemma sim_steady {A} api (m : M A) : steady m -> sim api m m.
Proof.
  intros Hm w1 w2 Ha. destruct (Hm w1 w2 Ha) as (Ho & Ha' & Hg).
  split; [by left|done].
Qed.

Lemma sim_bind {A B} api (m1 m2 : M A) (k1 k2 : A -> M B) :
  sim api m1 m2 -> (∀ a, sim api (k1 a) (k2 a)) -> sim api (m1 ≫= k1) (m2 ≫= k2).
Proof.
  intros Hm Hk w1 w2 Ha. rewrite !bind_run.
  destruct (Hm w1 w2 Ha) as [Hf Hg]. unfold follows in *.
  destruct (m1 w1) as [o1 w1'], (m2 w2) as [o2 w2']. simpl in *.
  destruct Hf as [[-> Ha']|(e & -> & Hr & Hp)].
  - destruct o2 as [a| |e|]; simpl.
    + destruct (Hk a w1' w2' Ha') as [Hf' Hg']. split; [done|by etrans].
    + split; [by left|done].
    + split; [by left|done].
    + split; [by left|done].
  - assert (inserts (trace w2') `prefix_of`
              inserts (trace (match o2 with
                              | Value a => k2 a w2'
                              | Returned => (Returned, w2')
                              | Thrown e0 => (Thrown e0, w2')
                              | Suspended => (Suspended, w2')
                              end).2)) as Hg'.
    { destruct o2 as [a| |e'|]; simpl; try done.
      by destruct (Hk a w2' w2' (alike_refl w2')) as [_ Hg']. }
    split; [|by etrans].
    right. exists e. split; [done|]. split; [done|]. by etrans.
Qed.

Lemma sim_call api c : sim api (call api c) (call resolving c).
Proof.
  intros w1 w2 Ha. unfold follows, call, resolving.
  split; [|apply inserts_emit_prefix].
  destruct (api (trace w1) c) as [e|] eqn:E; simpl.
  - right. exists e. split; [done|]. split; [by exists (trace w1), c|].
    rewrite !inserts_app. by destruct Ha as (_ & _ & _ & _ & _ & ->).
  - left. split; [done|by apply alike_emit].
Qed.

Lemma sim_ctx_reply api text html :
  sim api (ctx_reply api text html) (ctx_reply resolving text html).
Proof.
  intros w1 w2 Ha. unfold follows, ctx_reply, resolving.
  split; [|apply (inserts_emit_prefix (Reply text html))].
  destruct (api (trace w1) (Reply text html)) as [e|] eqn:E; simpl.
  - right. exists e. split; [done|]. split; [by exists (trace w1), (Reply text html)|].
    rewrite !inserts_app. by destruct Ha as (_ & _ & _ & _ & _ & ->).
  - left. split.
    + by destruct Ha as (_ & -> & _).
    + by apply alike_count_sent, alike_emit.
Qed.

(** A handler that logs and makes one call on the Bot API, beside doing
    nothing. *)
Lemma sim_handler api e c :
  inserts [e] = [] -> inserts [c] = [] ->
  sim api (tell e ≫= λ _, call api c) (mret tt).
Proof.
  intros He Hc w1 w2 Ha. split; [|done]. rewrite bind_run. unfold follows, tell, call.
  destruct Ha as (Hi & Hs & Hf & Hp & Hq & Hn).
  destruct (api (trace (emit e w1)) c) as [e'|] eqn:E; simpl.
  - right. exists e'. split; [done|]. split; [by exists (trace (emit e w1)), c|].
    simpl. by rewrite !inserts_app, He, Hc, !app_nil_r, Hn.
  - left. split; [done|]. repeat split; try done.
    simpl. by rewrite !inserts_app, He, Hc, !app_nil_r.
Qed.

Lemma sim_try_catch_assign {A} api (unassigned : A) (before : M A) (c : A -> Event)
    (h1 h2 : Exn -> M unit) :
  steady before ->
  (∀ e, sim api (h1 e) (h2 e)) ->
  (∀ e, sim api (h1 e) (mret tt)) ->
  sim api (try_catch_assign unassigned before (λ a, call api (c a)) h1)
          (try_catch_assign unassigned before (λ a, call resolving (c a)) h2).
Proof.
  intros Hb Hh Hq w1 w2 Ha. unfold try_catch_assign.
  destruct (Hb w1 w2 Ha) as (Ho & Ha' & Hg).
  destruct (before w1) as [o1 w1'], (before w2) as [o2 w2']. simpl in *. subst o2.
  destruct o1 as [a| |e|].
  - unfold catching, call at 1 3, resolving. simpl.
    split; [|etrans; [exact Hg|apply inserts_emit_prefix]].
    destruct (api (trace w1') (c a)) as [e|] eqn:E.
    + destruct (Hq e (emit (c a) w1') (emit (c a) w2') (alike_emit _ _ _ Ha')) as [Hf _].
      rewrite bind_run. unfold follows in *.
      destruct (h1 e (emit (c a) w1')) as [o w1'']. simpl in *.
      destruct Hf as [[-> Ha'']|(e' & -> & Hr & Hp)]; [by left|].
      right. by exists e'.
    + left. split; [done|]. by apply alike_emit.
  - split; [by left|done].
  - destruct (sim_bind api (h1 e) (h2 e) (λ _, mret unassigned) (λ _, mret unassigned)
                (Hh e) (λ _, sim_steady api _ (steady_pure _)) w1' w2' Ha') as [Hf Hg'].
    split; [exact Hf|by etrans].
  - split; [by left|done].
Qed.

Ltac sim_step :=
  lazymatch goal with
  | |- sim _ (_ ≫= _) (_ ≫= _) => apply sim_bind; [|intros ?]
  | |- sim _ (try_catch_assign _ _ _ _) (try_catch_assign _ _ _ _) =>
      apply sim_try_catch_assign;
      [repeat steady_step | intros ? | intros ?; by apply sim_handler]
  | |- sim _ (form_text _) (form_text _) => apply form_text_sim
  | |- sim _ (void _) (void _) => unfold void
  | |- sim _ (ctx_reply _ _ _) (ctx_reply _ _ _) => apply sim_ctx_reply
  | |- sim _ (call _ _) (call _ _) => apply sim_call
  | |- sim _ (match ?x with _ => _ end) (match ?x with _ => _ end) => destruct x
  | |- sim _ (if ?x then _ else _) (if ?x then _ else _) => destruct x
  | |- sim _ _ _ => apply sim_steady; repeat steady_step
  end.

(** A run on any Bot API beside the run in which every call resolves. *)
Lemma createProject_sim api svc ctx :
  sim api (createProject api svc ctx) (createProject resolving svc ctx).
Proof.
  unfold createProject, editMessageText, sendTipMessage. cbv zeta.
  repeat sim_step.
Qed.

Lemma run_follows api svc ctx w :
  follows api (createProject api svc ctx w) (createProject resolving svc ctx w).
Proof. apply (createProject_sim api svc ctx w w (alike_refl w)). Qed.


(** How a run ends beside the run in which every call resolves: the same
    way, with the records the same, or on the rejection of its last call
    by the Bot API. *)
Lemma outcome_on_cases api svc ctx w :
  (outcome_on api svc ctx w = outcome svc ctx w
   ∧ projectRecord (final_on api svc ctx w) = projectRecord (final svc ctx w)
   ∧ activeProjectRecord (final_on api svc ctx w) = activeProjectRecord (final svc ctx w))
  ∨ ∃ e, outcome_on api svc ctx w = Thrown e ∧ rejected api (final_on api svc ctx w) e.
Proof.
  destruct (run_follows api svc ctx w) as [[Ho (_ & _ & _ & Hp & Hq & _)]|(e & Ho & Hr & _)].
  - left. by repeat split.
  - right. by exists e.
Qed.

(** ** Persisting on any Bot API *)



(** ** How a run can end *)

Ltac quiet :=
  do 2 eexists; split; [unfold createProject; exec|];
  split; [calc_emitted; rewrite ?effects_app, ?effects_replicate_Reply; reflexivity|].

(** Either every step before the image upload goes through, or the run
    ends there: it has only prompted and replied, and when it throws,
    the exception is the rejection of [getUser] or of [createSlug]. *)
Lemma answered_or_quiet svc ctx w :
  (∃ s, answered svc ctx w s)
  ∨ ∃ o w',
      createProject resolving svc ctx w = (o, w')
      ∧ effects (emitted w w') = []
      ∧ match o with
        | Value _ => False
        | Returned | Suspended => True
        | Thrown e =>
            getUser svc (from_id ctx) = inl e
            ∨ ∃ name, text_answer 0 (inbox w) = Some name ∧ createSlug svc name = inl e
        end.
Proof.
  destruct (getUser svc (from_id ctx)) as [e|user] eqn:Hu; [right; quiet; by left|].
  destruct (next_text (inbox w)) as [[name us1]|] eqn:E1; [|right; quiet; done].
  destruct (next_text us1) as [[desc us2]|] eqn:E2; [|right; quiet; done].
  destruct (next_text us2) as [[tw us3]|] eqn:E3; [|right; quiet; done].
  destruct (handle_of twitter tw) as [twitterId|] eqn:Ht; [|right; quiet; done].
  destruct (next_text us3) as [[gh us4]|] eqn:E4; [|right; quiet; done].
  destruct (handle_of github gh) as [githubId|] eqn:Hg; [|right; quiet; done].
  destruct (next_photo (message_photo svc) us4) as [[u us5]|] eqn:E6; [|right; quiet; done].
  destruct (message u ≫= msg_photo) as [photo|] eqn:Hp; [|right; quiet; done].
  destruct (createSlug svc name) as [e|slug] eqn:Hs.
  { right; quiet. right. exists name. unfold text_answer. simpl. by rewrite E1. }
  left.
  exists {| s_user := user; projectName := name; projectDescription := desc;
            twitterInput := tw; twitterId := twitterId; githubInput := gh;
            githubId := githubId; s_photo := photo; s_slug := slug;
            s_path := ""; s_buffer := []; imageData := {| fullPath := "" |} |}.
  unfold answered, text_answer, photo_answer. simpl.
  rewrite E1, E2, E3, E4, E6. by repeat split.
Qed.

(** A run gets to the insert, or ends before the upload having only
    prompted and replied, or throws on the image data right after the
    [try] block. *)
Lemma run_cases svc ctx w :
  (∃ s, submitted svc ctx w s)
  ∨ (∃ o w',
       createProject resolving svc ctx w = (o, w')
       ∧ effects (emitted w w') = []
       ∧ match o with
         | Value _ => False
         | Returned | Suspended => True
         | Thrown e =>
             getUser svc (from_id ctx) = inl e
             ∨ ∃ name, text_answer 0 (inbox w) = Some name ∧ createSlug svc name = inl e
         end)
  ∨ (∃ e w',
       createProject resolving svc ctx w = (Thrown e, w')
       ∧ (e = TypeError "Cannot read properties of undefined (reading 'fullPath')"
          ∨ e = TypeError "Cannot read properties of null (reading 'fullPath')")).
Proof.
  destruct (answered_or_quiet svc ctx w) as [[s Ha]|?]; [|by right; left].
  destruct (upload_cases svc (s_slug s) (s_photo s))
    as [(path & buffer & data & Hup)|[e Hf]].
  - destruct data as [imageRes|].
    + left. exists (with_upload s path buffer imageRes). by split.
    + right; right.
      destruct (createProject_upload_empty svc ctx w
                  (with_upload s path buffer {| fullPath := "" |}) Ha Hup)
        as (w' & mid & Hr & _).
      do 2 eexists. split; [exact Hr|]. by right.
  - right; right.
    destruct (createProject_upload_failed svc ctx w s e Ha Hf)
      as (w' & mid & pre & Hr & _).
    do 2 eexists. split; [exact Hr|]. by left.
Qed.

Lemma insert_ok_cases response :
  match insert_error response, insert_data response with
  | None, Some data => insert_ok response = true
  | _, _ => insert_ok response = false
  end.
Proof.
  unfold insert_ok. by destruct (insert_error response), (insert_data response).
Qed.

(** The outcome of a run that gets to the insert. *)
Lemma submitted_outcome svc ctx w s :
  submitted svc ctx w s ->
  outcome svc ctx w
  = if insert_ok (db_insert svc (row_of ctx s)) then Value tt
    else Thrown (Error (insert_error (db_insert svc (row_of ctx s)))).
Proof.
  intros Hs.
  destruct (createProject_submitted svc ctx w s Hs) as (o & w' & mid & Hr & _ & Ho).
  apply run_of in Hr as (-> & _ & _). unfold insert_ok.
  destruct (insert_error (db_insert svc (row_of ctx s)));
    [|destruct (insert_data (db_insert svc (row_of ctx s)))]; by destruct Ho.
Qed.




(** X7: a run that runs to its end leaves, at the user's key, the row
    the database returned in [projectRecord] and that row's id in
    [activeProjectRecord]; the last call it made is the message to the
    alerts channel, with the name of the user [getUser] returned. *)
Theorem completed_run_records_the_project svc ctx w :
  outcome svc ctx w = Value tt ->
  ∃ s data,
    submitted svc ctx w s
    ∧ insert_data (db_insert svc (row_of ctx s)) = Some data
    ∧ projectRecord (final svc ctx w) = <[from_id ctx := data]> (projectRecord w)
    ∧ activeProjectRecord (final svc ctx w)
      = <[from_id ctx := project_id data]> (activeProjectRecord w)
    ∧ last (effects (events svc ctx w))
      = Some (SendMessage (alertsChannelId svc)
                (username (s_user s) +:+ " created a new project. "
                 +:+ project_anchor (s_slug s))
                true false).
Proof.
  intros Ho.
  destruct (run_cases svc ctx w) as [[s Hs]|[(o & w' & Hr & _ & Hq)|(e & w' & Hr & _)]].
  - destruct (createProject_submitted svc ctx w s Hs) as (o & w' & mid & Hr & He & Hd).
    apply run_of in Hr as (Hr & <- & Hev). rewrite Hr in Ho. subst o.
    rewrite <- Hev in He. exists s. unfold insert_ok in He.
    destruct (insert_error (db_insert svc (row_of ctx s))); [by destruct Hd|].
    destruct (insert_data (db_insert svc (row_of ctx s))) as [data|]; [|by destruct Hd].
    destruct Hd as (_ & Hp & Hq). exists data.
    split; [exact Hs|]. split; [done|]. split; [done|]. split; [done|].
    by rewrite He.
  - apply run_of in Hr as (Hr & _). rewrite Hr in Ho. by subst o.
  - apply run_of in Hr as (Hr & _). by rewrite Hr in Ho.
Qed.

Lemma completed_run_witness :
  let svc := demo_services (demo_file "photos/file_1.jpg") demo_stored demo_created in
  let w := demo_world "no" "https://github.com/acme-oss" in
  ∃ s data,
    submitted svc demo_ctx w s
    ∧ insert_data (db_insert svc (row_of demo_ctx s)) = Some data
    ∧ projectRecord (final svc demo_ctx w) = <[1%Z := data]> ∅
    ∧ activeProjectRecord (final svc demo_ctx w) = <[1%Z := project_id data]> ∅
    ∧ last (effects (events svc demo_ctx w))
      = Some (SendMessage 99
                (username (s_user s) +:+ " created a new project. "
                 +:+ project_anchor (s_slug s))
                true false).
Proof.
  intros svc w. apply (completed_run_records_the_project svc demo_ctx w).
  vm_compute. reflexivity.
Defined.

(** X8: a run that returns early or stays suspended has only prompted
    and replied: nothing was uploaded, logged, edited, inserted or
    broadcast.  Once the upload has begun, a run either runs to its end
    or throws. *)
Theorem early_exit_has_only_replied svc ctx w :
  outcome svc ctx w = Returned ∨ outcome svc ctx w = Suspended ->
  effects (events svc ctx w) = [].
Proof.
  intros Ho.
  destruct (run_cases svc ctx w) as [[s Hs]|[(o & w' & Hr & He & _)|(e & w' & Hr & _)]].
  - rewrite (submitted_outcome _ _ _ s Hs) in Ho.
    destruct (insert_ok _); by destruct Ho.
  - apply run_of in Hr as (_ & _ & ->). exact He.
  - apply run_of in Hr as (Hr & _). rewrite Hr in Ho. by destruct Ho.
Qed.

Lemma early_exit_witness :
  let svc := demo_services (demo_file "photos/file_1.jpg") demo_stored demo_created in
  let w := demo_world "no" "https://example.com/acme" in
  outcome svc demo_ctx w = Returned ∧ effects (events svc demo_ctx w) = [].
Proof.
  intros svc w. split; [vm_compute; reflexivity|].
  apply (early_exit_has_only_replied svc demo_ctx w). left. vm_compute. reflexivity.
Defined.

(** With every call on the Bot API resolving, the exceptions a run can
    end with. *)
Lemma resolving_run_throws svc ctx w e :
  outcome svc ctx w = Thrown e ->
  getUser svc (from_id ctx) = inl e
  ∨ (∃ name, text_answer 0 (inbox w) = Some name ∧ createSlug svc name = inl e)
  ∨ e = TypeError "Cannot read properties of undefined (reading 'fullPath')"
  ∨ e = TypeError "Cannot read properties of null (reading 'fullPath')"
  ∨ ∃ s, submitted svc ctx w s
         ∧ insert_ok (db_insert svc (row_of ctx s)) = false
         ∧ e = Error (insert_error (db_insert svc (row_of ctx s))).
Proof.
  intros Ho.
  destruct (run_cases svc ctx w) as [[s Hs]|[(o & w' & Hr & _ & Hq)|(e' & w' & Hr & He)]].
  - do 4 right. exists s. rewrite (submitted_outcome _ _ _ s Hs) in Ho.
    destruct (insert_ok _); [done|]. by injection Ho as <-.
  - apply run_of in Hr as (Hr & _). rewrite Hr in Ho. subst o.
    destruct Hq as [?|?]; [by left|by right; left].
  - apply run_of in Hr as (Hr & _). rewrite Hr in Ho. injection Ho as <-.
    destruct He as [->| ->]; [right; right; by left|do 3 right; by left].
Qed.

(** X9: on any Bot API, the exceptions a run can end with are the
    rejection of [getUser], the rejection of [createSlug], the
    [TypeError] of reading [fullPath] off an unset or empty [imageData],
    the [Error] made from the insert's error, and the rejection, by
    the Bot API, of the call the run made last.  What the services of
    the [try] block of the image step throw never reaches the caller. *)
Theorem thrown_exceptions api svc ctx w e :
  outcome_on api svc ctx w = Thrown e ->
  getUser svc (from_id ctx) = inl e
  ∨ (∃ name, text_answer 0 (inbox w) = Some name ∧ createSlug svc name = inl e)
  ∨ e = TypeError "Cannot read properties of undefined (reading 'fullPath')"
  ∨ e = TypeError "Cannot read properties of null (reading 'fullPath')"
  ∨ (∃ s, submitted svc ctx w s
          ∧ insert_ok (db_insert svc (row_of ctx s)) = false
          ∧ e = Error (insert_error (db_insert svc (row_of ctx s))))
  ∨ rejected api (final_on api svc ctx w) e.
Proof.
  intros Ho.
  destruct (outcome_on_cases api svc ctx w) as [(E & _)|(e' & E & Hr)].
  - rewrite E in Ho. apply resolving_run_throws in Ho. tauto.
  - do 5 right. congruence.
Qed.

Lemma thrown_exceptions_witness :
  let api : BotApi :=
    λ _ c, match c with
           | EditMessageText _ _ _ _ _ => Some (Rejection "Bad Request: message to edit not found")
           | _ => None
           end in
  let svc := demo_services (inl (Error (Some "file is too big"))) demo_stored demo_created in
  let w := demo_world "no" "no" in
  let e := Rejection "Bad Request: message to edit not found" in
  outcome_on api svc demo_ctx w = Thrown e
  ∧ (getUser svc (from_id demo_ctx) = inl e
     ∨ (∃ name, text_answer 0 (inbox w) = Some name ∧ createSlug svc name = inl e)
     ∨ e = TypeError "Cannot read properties of undefined (reading 'fullPath')"
     ∨ e = TypeError "Cannot read properties of null (reading 'fullPath')"
     ∨ (∃ s, submitted svc demo_ctx w s
             ∧ insert_ok (db_insert svc (row_of demo_ctx s)) = false
             ∧ e = Error (insert_error (db_insert svc (row_of demo_ctx s))))
     ∨ rejected api (final_on api svc demo_ctx w) e).
Proof.
  intros api svc w e. split; [vm_compute; reflexivity|].
  apply (thrown_exceptions api svc demo_ctx w e). vm_compute. reflexivity.
Defined.
(** ** The image step *)

Lemma has_photo_photo u : has_photo u = true -> is_Some (message u ≫= msg_photo).
Proof.
  unfold has_photo. destruct (message u) as [m|]; [|done]. simpl.
  by destruct (msg_photo m).
Qed.

Lemma next_photo_matches matches us u rest :
  next_photo matches us = Some (u, rest) -> matches u = true.
Proof.
  induction us as [|u' us IH]; simpl; [done|].
  destruct (matches u') eqn:E; [|done]. by intros [= <- _].
Qed.

(** X11: behind a session engine that lets through only updates with a
    photo, the image step never sees an update without one: updates
    without a photo are passed by without a reply, and a run whose
    pending updates hold no photo stays suspended. *)
Theorem image_step_waits_for_a_photo svc ctx w :
  message_photo svc = has_photo ->
  reaches_image_step svc ctx w ->
  photo_answer svc (inbox w) = None ->
  outcome svc ctx w = Suspended
  ∧ (Reply "Please provide a valid image." false ∉ events svc ctx w)
  ∧ inbox (final svc ctx w) = [].
Proof.
  intros Hf (user & name & desc & tw & twitterId & gh & githubId
             & Hu & H0 & H1 & H2 & Ht & H3 & Hg) Hp.
  destruct (text_answers_inv _ _ _ _ _ H0 H1 H2 H3)
    as (us1 & us2 & us3 & us4 & E1 & E2 & E3 & E4 & E5).
  unfold photo_answer in Hp. rewrite E5 in Hp.
  destruct (next_photo (message_photo svc) us4) as [[u us5]|] eqn:E6.
  { apply next_photo_matches in E6. rewrite Hf in E6.
    apply has_photo_photo in E6 as [photo E6]. congruence. }
  assert (∃ w', createProject resolving svc ctx w = (Suspended, w')
                ∧ (Reply "Please provide a valid image." false ∉ emitted w w')
                ∧ inbox w' = []) as (w' & Hr & Hn & Hi).
  { eexists. split; [unfold createProject; exec|]. split; [|reflexivity].
    calc_emitted.
    rewrite !elem_of_app, !elem_of_replicate, !elem_of_cons, elem_of_nil.
    unfold invalidProjectName. intuition discriminate. }
  apply run_of in Hr as (-> & -> & ->). done.
Qed.

Lemma image_step_waits_witness :
  let svc := demo_services (demo_file "photos/file_1.jpg") demo_stored demo_created in
  let w := demo_world_sending [text_update "logo.png"] in
  outcome svc demo_ctx w = Suspended
  ∧ (Reply "Please provide a valid image." false ∉ events svc demo_ctx w)
  ∧ inbox (final svc demo_ctx w) = [].
Proof.
  intros svc w. apply (image_step_waits_for_a_photo svc demo_ctx w).
  - reflexivity.
  - exists {| username := "alice" |}, "Acme", "A widget maker", "no", "no", "no", "no".
    repeat split; vm_compute; reflexivity.
  - vm_compute. reflexivity.
Defined.

(** ** Links made from addresses *)

Lemma handle_of_url_is_handle platform input id :
  String.prefix "http" input = true ->
  handle_of platform input = Some id ->
  is_handle_of platform id = true.
Proof.
  unfold handle_of. intros ->.
  destruct (extractUsernameFromUrl input platform) as [h|] eqn:E; [|done].
  destruct (truthy h); [|done]. intros [= <-]. by eapply extracted_is_handle.
Qed.

(** X12: a link input that starts with [http] and is accepted ends up in
    the inserted row as the platform's address followed by a handle made
    of characters of the platform's class only, or as no link when that
    handle is ["no"]: nothing else of the input reaches the row. *)
Theorem address_input_stores_a_handle svc ctx w s :
  submitted svc ctx w s ->
  ∃ row,
    inserted_rows svc ctx w = [row]
    ∧ (String.prefix "http" (twitterInput s) = true ->
       is_handle_of twitter (twitterId s) = true
       ∧ link_for "Twitter" row
         = if String.eqb (twitterId s) "no" then None
           else Some ("https://twitter.com/" +:+ twitterId s))
    ∧ (String.prefix "http" (githubInput s) = true ->
       is_handle_of github (githubId s) = true
       ∧ link_for "GitHub" row
         = if String.eqb (githubId s) "no" then None
           else Some ("https://github.com/" +:+ githubId s)).
Proof.
  intros Hs. exists (row_of ctx s). split; [by apply submitted_inserted_rows|].
  destruct Hs as [(_ & _ & _ & _ & Ht & _ & Hg & _) _].
  split; intros Hp.
  - split; [by eapply handle_of_url_is_handle|].
    rewrite link_for_twitter. unfold link_of. by destruct (String.eqb _ _).
  - split; [by eapply handle_of_url_is_handle|].
    rewrite link_for_github. unfold link_of. by destruct (String.eqb _ _).
Qed.

Lemma address_input_witness :
  let svc := demo_services (demo_file "photos/file_1.jpg") demo_stored demo_created in
  let w := demo_world "https://twitter.com/acme/status/1?s=20"
                      "https://github.com/acme-oss/widgets" in
  ∃ row,
    inserted_rows svc demo_ctx w = [row]
    ∧ link_for "Twitter" row = Some "https://twitter.com/acme"
    ∧ link_for "GitHub" row = Some "https://github.com/acme-oss".
Proof.
  intros svc w.
  destruct (address_input_stores_a_handle svc demo_ctx w
              (demo_submission "https://twitter.com/acme/status/1?s=20" "acme"
                 "https://github.com/acme-oss/widgets" "acme-oss" "photos/file_1.jpg"))
    as (row & Hr & Ht & Hg); [demo_submitted|].
  exists row. split; [exact Hr|].
  split; [exact (proj2 (Ht eq_refl))|exact (proj2 (Hg eq_refl))].
Defined.

(** ** The stored file *)

Lemma uploads_app es1 es2 : uploads (es1 ++ es2) = uploads es1 ++ uploads es2.
Proof. apply omap_app. Qed.

Lemma uploads_effects es : uploads (effects es) = uploads es.
Proof.
  induction es as [|e es IH]; [done|].
  destruct e; simpl; try apply IH. unfold uploads in *. simpl. by rewrite IH.
Qed.

(** X13: a run that gets to the insert has uploaded the image exactly
    once, under the slug followed by a dot and the extension, with the
    content type looked up from the extension; the upload is there
    whatever the insert answers, also when the run then throws. *)
Theorem image_is_stored_before_the_insert svc ctx w s :
  submitted svc ctx w s ->
  uploads (events svc ctx w)
  = [(fileName_of (s_slug s) (fileExtension_of (s_path s)),
      contentType_of svc (fileExtension_of (s_path s)))].
Proof.
  intros Hs. destruct (createProject_submitted svc ctx w s Hs) as (o & w' & mid & Hr & He & _).
  apply run_of in Hr as (_ & _ & ->). rewrite <- uploads_effects, He, uploads_app.
  by destruct (insert_ok _).
Qed.

Lemma image_is_stored_witness :
  let svc := demo_services (demo_file "photos/file_1.png") demo_stored demo_rejected in
  let w := demo_world "no" "no" in
  outcome svc demo_ctx w = Thrown (Error (Some "duplicate key value"))
  ∧ uploads (events svc demo_ctx w) = [("acme.png", "image/png")].
Proof.
  intros svc w. split; [vm_compute; reflexivity|].
  apply (image_is_stored_before_the_insert svc demo_ctx w
           (demo_submission "no" "no" "no" "no" "photos/file_1.png")).
  demo_submitted.
Defined.

Lemma after_last_dot_no_dot ext : no_dot ext = true -> after_last_dot ext = None.
Proof.
  induction ext as [|c ext IH]; [done|]. simpl.
  intros [Hc Hext]%andb_prop. rewrite (IH Hext). by destruct (Ascii.eqb c ".").
Qed.

Lemma after_last_dot_append base ext :
  no_dot ext = true -> after_last_dot (base +:+ "." +:+ ext) = Some ext.
Proof.
  intros Hext. induction base as [|c base IH].
  - change (after_last_dot (String "." ext) = Some ext). simpl.
    by rewrite (after_last_dot_no_dot ext Hext).
  - change (after_last_dot (String c (base +:+ "." +:+ ext)) = Some ext). simpl.
    by rewrite IH.
Qed.

(** X14: the extension of a path that ends in a dot followed by
    characters other than a dot is those characters, whatever stands
    before, dots included; and [jpg] when nothing follows the last
    dot. *)
Theorem extension_is_what_follows_the_last_dot base ext :
  no_dot ext = true ->
  fileExtension_of (base +:+ "." +:+ ext) = if truthy ext then ext else "jpg".
Proof.
  intros Hext. unfold fileExtension_of.
  pose proof (split_after_last_dot (base +:+ "." +:+ ext)) as H.
  rewrite (after_last_dot_append base ext Hext) in H.
  destruct H as (seg & segs & ->).
  by rewrite (last_cons_Some seg (segs ++ [ext]) ext) by apply last_snoc.
Qed.

Lemma extension_witness :
  fileExtension_of "photos/v1.2/file_7.png" = "png"
  ∧ fileExtension_of "photos/file_7." = "jpg".
Proof.
  split.
  - apply (extension_is_what_follows_the_last_dot "photos/v1.2/file_7" "png"). reflexivity.
  - apply (extension_is_what_follows_the_last_dot "photos/file_7" ""). reflexivity.
Defined.
